(** * LocalFileStorage: the local file system image storage adapter

    A shallow embedding of [core/server/adapters/storage/LocalFileStorage.js]
    together with the collaborators it calls into (Node's [path] module, the
    file system behind [fs-extra], the URL helpers, the error constructors),
    and the properties of the adapter proved over it. *)

From Stdlib Require Import Ascii String.
From stdpp Require Import gmap strings pretty list fin_maps.

Local Open Scope string_scope.
Local Open Scope list_scope.

(** ** JavaScript strings *)

Module Js.

Definition chars (s : string) : list ascii := list_ascii_of_string s.
Definition str (l : list ascii) : string := string_of_list_ascii l.

Definition slash : ascii := "/"%char.
Definition backslash : ascii := "\"%char.

Definition is_slash (c : ascii) : bool := Ascii.eqb c slash.

Definition non_empty (s : string) : bool :=
  match s with EmptyString => false | String _ _ => true end.

(** [s.startsWith(p)] *)
Fixpoint startsWith (p s : string) : bool :=
  match p, s with
  | EmptyString, _ => true
  | String _ _, EmptyString => false
  | String a p', String b s' => Ascii.eqb a b && startsWith p' s'
  end.

(** The last character of [s], if any. *)
Fixpoint last_char (s : string) : option ascii :=
  match s with
  | EmptyString => None
  | String c EmptyString => Some c
  | String _ r => last_char r
  end.

(** [parts.join(sep)] *)
Definition join (sep : string) (parts : list string) : string :=
  String.concat sep parts.

Fixpoint drop_while (f : ascii -> bool) (l : list ascii) : list ascii :=
  match l with
  | [] => []
  | c :: r => if f c then drop_while f r else l
  end.

(** [s.split('/')]: the pieces between slashes; never the empty list. *)
Fixpoint split_slash (s : string) : list string :=
  match s with
  | EmptyString => [EmptyString]
  | String c r =>
      if is_slash c then EmptyString :: split_slash r
      else match split_slash r with
           | h :: t => String c h :: t
           | [] => [String c EmptyString]
           end
  end.

(** [s.replace(new RegExp('\\' + sep, 'g'), '/')]: every occurrence of the
    one character [sep] becomes a forward slash. *)
Fixpoint replace_sep (sep : ascii) (s : string) : string :=
  match s with
  | EmptyString => EmptyString
  | String c r =>
      String (if Ascii.eqb c sep then slash else c) (replace_sep sep r)
  end.

(** [s.replace(/\/$|\\$/, '')]: the regular expression has no [g] flag and
    [$] only matches at the end of the input, so at most the one final
    character is removed, and only when it is a slash or a backslash. *)
Fixpoint strip_trailing (s : string) : string :=
  match s with
  | EmptyString => EmptyString
  | String c EmptyString =>
      if Ascii.eqb c slash || Ascii.eqb c backslash then EmptyString else s
  | String c r => String c (strip_trailing r)
  end.

(** Modelled from the spec: [tpl] of the package [@tryghost/tpl], whose
    code is outside this module.  [tpl(template, {img: v})] builds the
    message that "includes the offending relative path": the template with
    the placeholder [{img}] replaced by [v]. *)
Fixpoint tpl_from (skip : nat) (template : string) (img : string) : string :=
  match template with
  | EmptyString => EmptyString
  | String c r =>
      match skip with
      | S k => tpl_from k r img
      | O =>
          if startsWith "{img}" template
          then img +:+ tpl_from 4 r img
          else String c (tpl_from 0 r img)
      end
  end.

Definition tpl_img (template : string) (img : string) : string :=
  tpl_from 0 template img.

(** [tpl(template)] without data returns the template itself. *)
Definition tpl (template : string) : string := template.

End Js.

(** ** Node's [path] module

    The adapter uses [path.sep], [path.join], [path.dirname] and
    [path.relative]; which implementation it gets depends on the host
    (path.posix or path.win32). *)

Class PathModule := {
  sep : ascii;
  path_join : list string -> string;
  path_dirname : string -> string;
  path_relative : string -> string -> string
}.

Module Posix.
Import Js.

Definition isAbsolute (p : string) : bool := startsWith "/" p.

Definition ends_with_slash (p : string) : bool :=
  match last_char p with Some c => is_slash c | None => false end.

(** [normalizeString]: resolves [.] and [..] segments and drops empty
    ones.  [acc] holds the segments kept so far, last one first. *)
Fixpoint normalizeSegs (allowAboveRoot : bool) (acc : list string)
    (segs : list string) : list string :=
  match segs with
  | [] => rev acc
  | s :: rest =>
      if String.eqb s "" || String.eqb s "." then
        normalizeSegs allowAboveRoot acc rest
      else if String.eqb s ".." then
        match acc with
        | a :: acc' =>
            if String.eqb a ".." then
              normalizeSegs allowAboveRoot
                (if allowAboveRoot then ".." :: acc else acc) rest
            else normalizeSegs allowAboveRoot acc' rest
        | [] =>
            normalizeSegs allowAboveRoot
              (if allowAboveRoot then [".."] else []) rest
        end
      else normalizeSegs allowAboveRoot (s :: acc) rest
  end.

Definition normalizeString (p : string) (allowAboveRoot : bool) : string :=
  join "/" (normalizeSegs allowAboveRoot [] (split_slash p)).

(** [posix.normalize] *)
Definition normalize (p : string) : string :=
  if non_empty p then
    let body := normalizeString p (negb (isAbsolute p)) in
    if non_empty body then
      (if isAbsolute p then "/" else "") +:+ body +:+
      (if ends_with_slash p then "/" else "")
    else if isAbsolute p then "/"
    else if ends_with_slash p then "./" else "."
  else ".".

(** [posix.join(...args)] *)
Definition join_paths (args : list string) : string :=
  match filter (fun a => non_empty a = true) args with
  | [] => "."
  | parts => normalize (join "/" parts)
  end.

(** [posix.dirname]: scans from the right, skipping trailing slashes and
    then the last segment; index 0 is never examined by the loop. *)
Definition dirname (p : string) : string :=
  match p with
  | EmptyString => "."
  | String c0 rest =>
      let hasRoot := is_slash c0 in
      let r := drop_while is_slash (rev (chars rest)) in
      match drop_while (fun c => negb (is_slash c)) r with
      | [] => if hasRoot then "/" else "."
      | _ :: before =>
          if hasRoot && Nat.eqb (length before) 0 then "//"
          else String c0 (str (rev before))
      end
  end.

(** [posix.resolve(p)] as a list of segments: a relative path is taken
    from the working directory of the process. *)
Definition resolve_segs (cwd p : string) : list string :=
  normalizeSegs false []
    (split_slash (if isAbsolute p then p else cwd +:+ "/" +:+ p)).

Definition resolve (cwd p : string) : string :=
  "/" +:+ join "/" (resolve_segs cwd p).

Fixpoint drop_common (f t : list string) : list string * list string :=
  match f, t with
  | a :: f', b :: t' => if String.eqb a b then drop_common f' t' else (f, t)
  | _, _ => (f, t)
  end.

(** [posix.relative(from, to)]: both ends are resolved, the common leading
    segments are dropped, every remaining segment of [from] becomes [..]. *)
Definition relative (cwd from to : string) : string :=
  if String.eqb from to then ""
  else
    let '(f, t) := drop_common (resolve_segs cwd from) (resolve_segs cwd to) in
    join "/" (map (fun _ => "..") f ++ t).

(** path.posix, for a process whose working directory is [cwd]. *)
Definition posix (cwd : string) : PathModule := {|
  sep := slash;
  path_join := join_paths;
  path_dirname := dirname;
  path_relative := relative cwd
|}.

End Posix.

(** ** URL helpers ([shared/url-utils]) *)

Module UrlUtils.
Import Js.

(** The replacement of [/(^|[^:])\/\/+/g] by ['$1/'], read left to right.
    With [skip] set the scan sits inside a run of slashes that a match has
    already consumed. *)
Fixpoint collapse (skip : bool) (s : string) : string :=
  match s with
  | EmptyString => EmptyString
  | String c r =>
      if skip && is_slash c then collapse true r
      else if negb (Ascii.eqb c ":"%char) && startsWith "//" r
      then String c (String slash (collapse true r))
      else String c (collapse false r)
  end.

Definition fix_multiple_slashes (url : string) : string :=
  if startsWith "//" url then String slash (collapse true url)
  else collapse false url.

(** Modelled from the spec: [urlJoin] of [shared/url-utils], whose code is
    outside this module.  It "joins a leading slash, an optional
    application subdirectory, a fixed static-image prefix, and the relative
    path" into [/[subdir/]<static-image-prefix>/<relative-path>]: an empty
    first part is dropped, the parts are joined with a slash, runs of
    slashes (other than the one after a scheme's colon) become one slash,
    and the double slash of a scheme-less first part is put back. *)
Definition urlJoin (parts : list string) : string :=
  let parts := match parts with EmptyString :: rest => rest | _ => parts end in
  let prefixDoubleSlash :=
    match parts with p0 :: _ => startsWith "//" p0 | [] => false end in
  let url := fix_multiple_slashes (join "/" parts) in
  if prefixDoubleSlash then
    match url with
    | String c r => if is_slash c then "//" +:+ r else url
    | EmptyString => url
    end
  else url.

End UrlUtils.

(** ** The file system behind [fs-extra] *)

Module Fs.
Import Js.

Definition bytes := list Byte.byte.

(** An error object as Node reports it; [code] is what callers test,
    [errpath] the path the error names, when it names one. *)
Record error := { code : option string; errpath : option string }.

Definition errno (c : string) (p : string) : error :=
  {| code := Some c; errpath := Some p |}.

(** Node refuses a path argument that holds a NUL character: the call
    itself throws a TypeError, before anything is done. *)
Fixpoint has_nul (s : string) : bool :=
  match s with
  | EmptyString => false
  | String c r => Ascii.eqb c Ascii.zero || has_nul r
  end.

Definition invalid_arg : error :=
  {| code := Some "ERR_INVALID_ARG_VALUE"; errpath := None |}.

Definition validate (p : string) : option error :=
  if has_nul p then Some invalid_arg else None.

Inductive result (A : Type) : Type :=
| Ok (a : A)
| Err (e : error).
Arguments Ok {A} a.
Arguments Err {A} e.

(** A directory entry.  [perm] says whether the process may use the entry:
    read or write a file, search or add to a directory. *)
Inductive node : Type :=
| File (perm : bool) (data : bytes)
| Dir (perm : bool).

(** The tree, keyed by the absolute path as a list of names.  The root [[]]
    is always a directory and has no entry of its own. *)
Abbreviation tree := (gmap (list string) node).

Definition NAME_MAX : nat := 255.
Definition PATH_MAX : nat := 4096.

Definition too_long (name : string) : bool :=
  Nat.ltb NAME_MAX (String.length name).

(** Where a path string points: its names from the root, and whether a
    trailing slash demands a directory.  Relative paths start at [cwd].  No
    name with a NUL character reaches the system: the call is refused
    first, and with the promise API of [fs-extra] that refusal is the
    rejection of the promise. *)
Record target := { segs : list string; must_be_dir : bool }.

Definition locate (cwd p : string) : result target :=
  if negb (non_empty p) then Err (errno "ENOENT" p)
  else if has_nul (if Posix.isAbsolute p then p else cwd +:+ "/" +:+ p)
  then Err invalid_arg
  else if Nat.leb PATH_MAX (String.length p) then Err (errno "ENAMETOOLONG" p)
  else Ok {| segs := Posix.resolve_segs cwd p;
             must_be_dir := Posix.ends_with_slash p |}.

(** Name lookup from the directory [cur], which exists and may be
    searched, along [rest]; yields the entry at the end, if there is one. *)
Fixpoint walk (t : tree) (p : string) (cur rest : list string)
    : result (option node) :=
  match rest with
  | [] => Ok (Some (Dir true))
  | c :: rest' =>
      if too_long c then Err (errno "ENAMETOOLONG" p)
      else
        match rest' with
        | [] => Ok (t !! (cur ++ [c]))
        | _ :: _ =>
            match t !! (cur ++ [c]) with
            | None => Err (errno "ENOENT" p)
            | Some (File _ _) => Err (errno "ENOTDIR" p)
            | Some (Dir false) => Err (errno "EACCES" p)
            | Some (Dir true) => walk t p (cur ++ [c]) rest'
            end
        end
  end.

Definition lookup_path (cwd : string) (t : tree) (p : string)
    : result (target * option node) :=
  match locate cwd p with
  | Err e => Err e
  | Ok tg =>
      match walk t p [] (segs tg) with
      | Err e => Err e
      | Ok n => Ok (tg, n)
      end
  end.

(** [fs.stat(p)] *)
Definition stat (cwd : string) (t : tree) (p : string) : result node :=
  match lookup_path cwd t p with
  | Err e => Err e
  | Ok (_, None) => Err (errno "ENOENT" p)
  | Ok (tg, Some (File perm d)) =>
      if must_be_dir tg then Err (errno "ENOTDIR" p) else Ok (File perm d)
  | Ok (_, Some (Dir perm)) => Ok (Dir perm)
  end.

(** [fs.readFile(p, callback)] for a path that [validate] lets through: what
    the callback gets.  A directory can be opened when the process may use
    it, and the read of it then fails with an EISDIR that names no path. *)
Definition readFile (cwd : string) (t : tree) (p : string) : result bytes :=
  match lookup_path cwd t p with
  | Err e => Err e
  | Ok (_, None) => Err (errno "ENOENT" p)
  | Ok (_, Some (Dir perm)) =>
      if perm then Err {| code := Some "EISDIR"; errpath := None |}
      else Err (errno "EACCES" p)
  | Ok (tg, Some (File perm d)) =>
      if must_be_dir tg then Err (errno "ENOTDIR" p)
      else if perm then Ok d else Err (errno "EACCES" p)
  end.

(** [fs.writeFile(p, data)]: creates the file or replaces its content. *)
Definition writeFile (cwd : string) (t : tree) (p : string) (data : bytes)
    : result tree :=
  match lookup_path cwd t p with
  | Err e => Err e
  | Ok (_, Some (Dir _)) => Err (errno "EISDIR" p)
  | Ok (tg, Some (File perm _)) =>
      if must_be_dir tg then Err (errno "ENOTDIR" p)
      else if perm then Ok (<[segs tg := File true data]> t)
      else Err (errno "EACCES" p)
  | Ok (tg, None) =>
      if must_be_dir tg then Err (errno "EISDIR" p)
      else Ok (<[segs tg := File true data]> t)
  end.

(** The loop of a recursive [mkdir]: missing directories are created on
    the way; what was created stays when a later name fails. *)
Fixpoint mkdirp (t : tree) (p : string) (cur rest : list string)
    : option error * tree :=
  match rest with
  | [] => (None, t)
  | c :: rest' =>
      if too_long c then (Some (errno "ENAMETOOLONG" p), t)
      else
        match t !! (cur ++ [c]) with
        | None => mkdirp (<[cur ++ [c] := Dir true]> t) p (cur ++ [c]) rest'
        | Some (Dir true) => mkdirp t p (cur ++ [c]) rest'
        | Some (Dir false) =>
            match rest' with
            | [] => (None, t)
            | _ :: _ => (Some (errno "EACCES" p), t)
            end
        | Some (File _ _) =>
            match rest' with
            | [] => (Some (errno "EEXIST" p), t)
            | _ :: _ => (Some (errno "ENOTDIR" p), t)
            end
        end
  end.

(** [fs.mkdirs(p)] *)
Definition mkdirs (cwd : string) (t : tree) (p : string)
    : option error * tree :=
  match locate cwd p with
  | Err e => (Some e, t)
  | Ok tg => mkdirp t p [] (segs tg)
  end.

(** [fs.copy(src, dest)] for a regular file: the two paths must differ,
    the directory of [dest] is created when missing, an existing file at
    [dest] is replaced.  A directory as source (a recursive copy) is not
    part of this model, which reports [EISDIR] for it. *)
Definition copy (cwd : string) (t : tree) (src dest : string)
    : option error * tree :=
  match stat cwd t src with
  | Err e => (Some e, t)
  | Ok (Dir _) => (Some (errno "EISDIR" src), t)
  | Ok (File perm data) =>
      match locate cwd dest with
      | Err e => (Some e, t)
      | Ok tg =>
          if decide (Posix.resolve_segs cwd src = segs tg) then
            (Some {| code := None; errpath := None |}, t)
          else
            match stat cwd t dest with
            | Ok (Dir _) => (Some {| code := None; errpath := None |}, t)
            | _ =>
                match mkdirs cwd t (Posix.dirname dest) with
                | (Some e, t') => (Some e, t')
                | (None, t') =>
                    if perm then
                      match writeFile cwd t' dest data with
                      | Ok t'' => (None, t'')
                      | Err e => (Some e, t')
                      end
                    else (Some (errno "EACCES" src), t')
                end
            end
      end
  end.

End Fs.

(** ** Error objects ([@tryghost/errors]) and promises *)

Module Errors.

(** The JavaScript values that the adapter compares with [===]. *)
Inductive jsval : Type :=
| JUndefined
| JNum (n : Z)
| JStr (s : string).

#[global] Instance jsval_eq_dec : EqDecision jsval.
Proof. solve_decision. Defined.

(** [a === b] *)
Definition strict_eq (a b : jsval) : bool := bool_decide (a = b).

(** The error object the static-serving primitive hands to its callback. *)
Record static_error := { statusCode : jsval; path : jsval }.

(** The original error wrapped as [err] in a typed error. *)
Inductive cause : Type :=
| FsCause (e : Fs.error)
| StaticCause (e : static_error).

(** The options object passed to an error constructor. *)
Record error_options := {
  err : option cause;
  message : option string;
  code : option string;
  property : option jsval
}.

Inductive ghost_error : Type :=
| NotFoundError (o : error_options)
| BadRequestError (o : error_options)
| NoPermissionError (o : error_options)
| GhostError (o : error_options).

Definition wrapping (c : cause) : error_options :=
  {| err := Some c; message := None; code := None; property := None |}.

(** What a promise is rejected with: an error of a collaborator passed on
    unchanged, one of the typed errors, or a bare string. *)
Inductive rejection : Type :=
| Thrown (e : Fs.error)
| Typed (e : ghost_error)
| Literal (s : string).

Inductive promise (A : Type) : Type :=
| Resolved (a : A)
| Rejected (r : rejection).
Arguments Resolved {A} a.
Arguments Rejected {A} r.

End Errors.

(** ** The state the adapter runs in *)

Module World.
Import Errors.

(** The calls made into the file system, with the path strings passed. *)
Inductive fs_call : Type :=
| Mkdirs (p : string)
| WriteFile (p : string)
| ReadFile (p : string)
| Stat (p : string)
| Copy (src dest : string).

(** An [options] object as [read] receives it: [path] may be absent. *)
Record options := { opt_path : option string }.

Abbreviation loc := positive.

Record world := {
  cwd : string;                  (* process.cwd() *)
  files : Fs.tree;               (* the disk *)
  heap : gmap loc options;       (* objects shared with the caller *)
  log : list fs_call             (* file system calls so far *)
}.

Definition M (A : Type) : Type := world -> A * world.

Definition ret {A} (a : A) : M A := fun w => (a, w).

Definition bind {A B} (m : M A) (k : A -> M B) : M B :=
  fun w => let '(a, w') := m w in k a w'.

(** [await m] inside an async function: a rejection ends the function. *)
Definition await {A B} (m : M (promise A)) (k : A -> M (promise B))
    : M (promise B) :=
  bind m (fun r =>
    match r with
    | Resolved a => k a
    | Rejected e => ret (Rejected e)
    end).

Definition called (c : fs_call) (t : Fs.tree) (w : world) : world :=
  {| cwd := cwd w; files := t; heap := heap w; log := log w ++ [c] |}.

Definition settle (r : option Fs.error) : promise unit :=
  match r with
  | None => Resolved tt
  | Some e => Rejected (Thrown e)
  end.

Definition fs_mkdirs (p : string) : M (promise unit) :=
  fun w =>
    let '(r, t) := Fs.mkdirs (cwd w) (files w) p in
    (settle r, called (Mkdirs p) t w).

Definition fs_writeFile (p : string) (data : Fs.bytes) : M (promise unit) :=
  fun w =>
    match Fs.writeFile (cwd w) (files w) p data with
    | Fs.Ok t => (Resolved tt, called (WriteFile p) t w)
    | Fs.Err e => (Rejected (Thrown e), called (WriteFile p) (files w) w)
    end.

Definition fs_copy (src dest : string) : M (promise unit) :=
  fun w =>
    let '(r, t) := Fs.copy (cwd w) (files w) src dest in
    (settle r, called (Copy src dest) t w).

(** [fs.stat(p)] and [fs.readFile(p, callback)] leave the disk alone. *)
Definition fs_stat (p : string) : M (Fs.result Fs.node) :=
  fun w => (Fs.stat (cwd w) (files w) p, called (Stat p) (files w) w).

(** What a call that takes a callback comes to: the call itself throws, or
    the callback gets the outcome. *)
Inductive callback_call (A : Type) : Type :=
| Throws (e : Fs.error)
| CallsBack (r : Fs.result A).
Arguments Throws {A} e.
Arguments CallsBack {A} r.

Definition fs_readFile (p : string) : M (callback_call Fs.bytes) :=
  fun w =>
    (match Fs.validate p with
     | Some e => Throws e
     | None => CallsBack (Fs.readFile (cwd w) (files w) p)
     end,
     called (ReadFile p) (files w) w).

(** Objects: a fresh [{}], reading and assigning [options.path]. *)
Definition new_object : M loc :=
  fun w =>
    let l := fresh (dom (heap w)) in
    (l, {| cwd := cwd w; files := files w;
           heap := <[l := {| opt_path := None |}]> (heap w); log := log w |}).

Definition get_path (l : loc) : M (option string) :=
  fun w => (o ← heap w !! l; opt_path o, w).

Definition set_path (l : loc) (v : string) : M unit :=
  fun w =>
    (tt, {| cwd := cwd w; files := files w;
            heap := <[l := {| opt_path := Some v |}]> (heap w);
            log := log w |}).

(** [a || b] on an optional string: absent and empty are both falsy. *)
Definition or_else (a : option string) (b : string) : string :=
  match a with
  | Some s => if Js.non_empty s then s else b
  | None => b
  end.

End World.

(** ** Collaborators supplied by the host *)

Module Host.
Import Errors World.

(** [StorageBase.Image]: the uploaded file and its original name. *)
Record image := { image_path : string; image_name : string }.

(** The base class [ghost-storage-base]: the dated target directory and the
    unique file name, which probes the adapter's own [exists]. *)
Class StorageBase := {
  getTargetDir : string -> string;
  getUniqueFileName :
    (string -> option string -> M (promise bool)) ->
    image -> string -> M (promise string)
}.

(** Configuration: [config.getContentPath('images')],
    [urlUtils.getSubdir()] and [urlUtils.STATIC_IMAGE_URL_PREFIX]. *)
Record Config := {
  contentPath_images : string;
  getSubdir : string;
  STATIC_IMAGE_URL_PREFIX : string
}.

Record request := { req_path : string }.

Record serve_options := { maxAge : Z; fallthrough : bool }.

(** What the static-serving primitive does with a request: it answers
    itself, or it calls back, with an error or with nothing. *)
Inductive static_outcome : Type :=
| Responded
| Callback (err : option static_error).

Class StaticPrimitive := {
  serveStatic : string -> serve_options -> request -> M static_outcome
}.

(** [constants.ONE_YEAR_MS] *)
Definition ONE_YEAR_MS : Z := 31536000000.

End Host.

(** ** The adapter *)

Module LocalFileStore.
Import Js Errors World Host.

Definition imageNotFound : string := "Image not found".
Definition imageNotFoundWithRef : string := "Image not found: {img}".
Definition cannotReadImage : string := "Could not read image: {img}".

(** What the handler of [serve] does with [next]. *)
Inductive next_call : Type :=
| NotCalled
| Next (e : option ghost_error).

Section Adapter.
Context {path : PathModule} {base : StorageBase} {static : StaticPrimitive}.
Variable config : Config.

(** [this.storagePath], set by the constructor. *)
Definition storagePath : string := contentPath_images config.

(** The URL both [saveRaw] and [save] build from a relative path. *)
Definition fullUrl (relativePath : string) : string :=
  replace_sep sep
    (UrlUtils.urlJoin
       ["/"; getSubdir config; STATIC_IMAGE_URL_PREFIX config; relativePath]).

Definition saveRaw (buffer : Fs.bytes) (targetPath : string)
    : M (promise string) :=
  let storagePath := path_join [storagePath; targetPath] in
  let targetDir := path_dirname storagePath in
  await (fs_mkdirs targetDir) (fun _ =>
  await (fs_writeFile storagePath buffer) (fun _ =>
  ret (Resolved (fullUrl targetPath)))).

Definition exists_ (fileName : string) (targetDir : option string)
    : M (promise bool) :=
  let filePath := path_join [or_else targetDir storagePath; fileName] in
  bind (fs_stat filePath) (fun r =>
    match r with
    | Fs.Ok _ => ret (Resolved true)
    | Fs.Err _ => ret (Resolved false)
    end).

Definition save (image : image) (targetDir : option string)
    : M (promise string) :=
  let targetDir := or_else targetDir (getTargetDir storagePath) in
  await (getUniqueFileName exists_ image targetDir) (fun filename =>
  let targetFilename := filename in
  await (fs_mkdirs targetDir) (fun _ =>
  await (fs_copy (image_path image) targetFilename) (fun _ =>
  ret (Resolved (fullUrl (path_relative storagePath targetFilename)))))).

(** The callback [serve] hands to the static-serving primitive. *)
Definition serve_callback (err : option static_error) : next_call :=
  match err with
  | Some e =>
      if strict_eq (statusCode e) (JNum 404) then
        Next (Some (NotFoundError
          {| err := None;
             message := Some (tpl imageNotFound);
             code := Some "STATIC_FILE_NOT_FOUND";
             property := Some (Errors.path e) |}))
      else if strict_eq (statusCode e) (JNum 400) then
        Next (Some (BadRequestError (wrapping (StaticCause e))))
      else if strict_eq (statusCode e) (JNum 403) then
        Next (Some (NoPermissionError (wrapping (StaticCause e))))
      else Next (Some (GhostError (wrapping (StaticCause e))))
  | None => Next None
  end.

(** [serve()] returns [serveStaticContent]; this is that closure. *)
Definition serve (req : request) : M next_call :=
  bind (serveStatic storagePath
          {| maxAge := ONE_YEAR_MS; fallthrough := false |} req)
    (fun outcome =>
       match outcome with
       | Responded => ret NotCalled
       | Callback err => ret (serve_callback err)
       end).

Definition delete : M (promise unit) :=
  ret (Rejected (Literal "not implemented")).

Definition code_is (e : Fs.error) (c : string) : bool :=
  bool_decide (Fs.code e = Some c).

(** The callback [read] hands to [fs.readFile]; [img] is [options.path]
    at that moment. *)
Definition read_callback (img : string) (r : Fs.result Fs.bytes)
    : promise Fs.bytes :=
  match r with
  | Fs.Err e =>
      if code_is e "ENOENT" || code_is e "ENOTDIR" then
        Rejected (Typed (NotFoundError
          {| err := Some (FsCause e);
             message := Some (tpl_img imageNotFoundWithRef img);
             code := None; property := None |}))
      else if code_is e "ENAMETOOLONG" then
        Rejected (Typed (BadRequestError (wrapping (FsCause e))))
      else if code_is e "EACCES" then
        Rejected (Typed (NoPermissionError (wrapping (FsCause e))))
      else
        Rejected (Typed (GhostError
          {| err := Some (FsCause e);
             message := Some (tpl_img cannotReadImage img);
             code := None; property := None |}))
  | Fs.Ok bytes => Resolved bytes
  end.

(** [options] is a reference to the caller's object, or absent.  When
    [fs.readFile] throws, inside the executor of the promise, the promise
    is rejected with what was thrown. *)
Definition read (options : option loc) : M (promise Fs.bytes) :=
  bind (match options with
        | Some l => ret l
        | None => new_object
        end) (fun options =>
  bind (get_path options) (fun p =>
  bind (set_path options (strip_trailing (or_else p ""))) (fun _ =>
  bind (get_path options) (fun p =>
  let targetPath := path_join [storagePath; default "" p] in
  bind (fs_readFile targetPath) (fun call =>
  bind (get_path options) (fun img =>
  ret (match call with
       | Throws e => Rejected (Thrown e)
       | CallsBack r => read_callback (default "" img) r
       end))))))).

End Adapter.
End LocalFileStore.

(** ** Reference collaborators

    Instances of the host's interfaces, used to run the adapter on
    concrete inputs. *)

Module Reference.
Import Js Errors World Host.

Definition last_segment (p : string) : string :=
  List.last (filter (fun s => non_empty s = true) (split_slash p)) "".

(** Splits a reversed name at its right-most dot: the extension with its
    dot, and the reversed stem before it. *)
Fixpoint split_ext (r acc : list ascii) : option (list ascii * list ascii) :=
  match r with
  | [] => None
  | c :: r' =>
      if Ascii.eqb c "."%char then Some (c :: acc, r')
      else split_ext r' (c :: acc)
  end.

(** [path.extname]: empty when the name has no dot, starts with its only
    dot, or is [..]. *)
Definition extname (p : string) : string :=
  let b := last_segment p in
  match split_ext (rev (chars b)) [] with
  | Some (ext, stem) =>
      match stem with
      | [] => ""
      | _ :: _ => if String.eqb b ".." then "" else str ext
      end
  | None => ""
  end.

(** [path.basename(p, ext)] for [ext = extname p]. *)
Definition basename (p ext : string) : string :=
  let b := last_segment p in
  String.substring 0 (String.length b - String.length ext) b.

Definition word_char (c : ascii) : bool :=
  let n := nat_of_ascii c in
  (Nat.leb 48 n && Nat.leb n 57) || (Nat.leb 65 n && Nat.leb n 90) ||
  (Nat.leb 97 n && Nat.leb n 122) || Nat.eqb n 95.

(** [fileName.replace(/[^\w@.]/gi, '-')] *)
Fixpoint getSanitizedFileName (fileName : string) : string :=
  match fileName with
  | EmptyString => EmptyString
  | String c r =>
      String (if word_char c || Ascii.eqb c "@"%char || Ascii.eqb c "."%char
              then c else "-"%char)
             (getSanitizedFileName r)
  end.

(** Modelled from the spec: the helpers of the base class
    [ghost-storage-base], an external package.  "Given an image descriptor
    and a base directory," they "return a collision-free absolute
    destination path and/or a dated subdirectory path; the adapter calls
    [exists] as their collision oracle." *)
Section Base.
Context {path : PathModule}.
Variables year month : string.

Definition getTargetDir (baseDir : string) : string :=
  if non_empty baseDir then path_join [baseDir; year; month]
  else path_join [year; month].

(** [generateUnique]: tries [name], [name-1], [name-2], ... until
    [exists] says the name is free.  [fuel] bounds the number of tries. *)
Fixpoint generateUnique (fuel : nat)
    (exists_ : string -> option string -> M (promise bool))
    (dir name ext : string) (i : nat) : M (promise string) :=
  let append := if Nat.eqb i 0 then "" else "-" +:+ pretty i in
  let filename := name +:+ append +:+ ext in
  await (exists_ filename (Some dir)) (fun taken =>
    if taken : bool then
      match fuel with
      | O => ret (Rejected (Literal "no free name"))
      | S fuel' => generateUnique fuel' exists_ dir name ext (i + 1)
      end
    else ret (Resolved (path_join [dir; filename]))).

(** More tries than the disk has entries: one of the names is free. *)
Definition getUniqueFileName
    (exists_ : string -> option string -> M (promise bool))
    (image : image) (targetDir : string) : M (promise string) :=
  let ext := extname (image_name image) in
  let name := getSanitizedFileName (basename (image_name image) ext) in
  fun w => generateUnique (size (files w)) exists_ targetDir name ext 0 w.

Definition storageBase : StorageBase := {|
  Host.getTargetDir := getTargetDir;
  Host.getUniqueFileName := getUniqueFileName
|}.
End Base.

(** A static-serving primitive over the modelled disk, in the shape the
    adapter relies on: a readable file is answered directly, a path with a
    [..] segment is refused (403), a missing entry is a 404 carrying the
    path (or a plain call-through when [fallthrough] is on), anything else
    a 500. *)
Definition sendFile (root : string) (opts : serve_options) (req : request)
    : M static_outcome :=
  if bool_decide (".." ∈ split_slash (req_path req)) then
    ret (Callback (Some {| statusCode := JNum 403; path := JUndefined |}))
  else
    let file := Posix.join_paths [root; req_path req] in
    bind (fs_stat file) (fun r =>
      match r with
      | Fs.Ok (Fs.File true _) => ret Responded
      | Fs.Ok _ =>
          ret (Callback (Some {| statusCode := JNum 500; path := JStr file |}))
      | Fs.Err _ =>
          if fallthrough opts then ret (Callback None)
          else
            ret (Callback
                   (Some {| statusCode := JNum 404; path := JStr file |}))
      end).

Definition staticPrimitive : StaticPrimitive := {| serveStatic := sendFile |}.

End Reference.

(** ** A Ghost installation

    The adapter of a Ghost installation under [/var/lib/ghost], served at
    the top of its site, on a POSIX host; with sample data. *)

Module Ghost.
Import Js Errors World Host.

Definition config : Config := {|
  contentPath_images := "/var/lib/ghost/content/images/";
  getSubdir := "";
  STATIC_IMAGE_URL_PREFIX := "content/images"
|}.

Definition path : PathModule := Posix.posix "/var/lib/ghost".
Definition base : StorageBase := @Reference.storageBase path "2024" "03".

Definition fullUrl := @LocalFileStore.fullUrl path config.
Definition saveRaw := @LocalFileStore.saveRaw path config.
Definition save := @LocalFileStore.save path base config.
Definition exists_ := @LocalFileStore.exists_ path config.
Definition read := @LocalFileStore.read path config.
Definition serve := @LocalFileStore.serve Reference.staticPrimitive config.

Definition dir_entries (names : list string) : list (list string * Fs.node) :=
  map (fun n => (take n names, Fs.Dir true)) (seq 1 (length names)).

(** A disk on which the content directory exists and nothing else. *)
Definition emptyDisk : Fs.tree :=
  list_to_map (dir_entries ["var"; "lib"; "ghost"; "content"; "images"]).

Definition boot (disk : Fs.tree) : world :=
  {| cwd := "/var/lib/ghost"; files := disk; heap := ∅; log := [] |}.

Definition world : World.world := boot emptyDisk.

Definition sample : Fs.bytes := [Byte.x47; Byte.x49; Byte.x46].

Definition upload : image :=
  {| image_path := "/tmp/upload_3f2a"; image_name := "my photo.gif" |}.

(** A request for an image that is not on [emptyDisk], and the error the
    static-serving primitive reports for it. *)
Definition missing : request := {| req_path := "/2024/03/missing.gif" |}.

Definition missing_error : static_error :=
  {| statusCode := JNum 404;
     Errors.path :=
       JStr "/var/lib/ghost/content/images/2024/03/missing.gif" |}.

(** A disk with the content directory and one uploaded file in [/tmp]. *)
Definition diskWithUpload : Fs.tree :=
  <[ ["tmp"; "upload_3f2a"] := Fs.File true sample ]>
    (<[ ["tmp"] := Fs.Dir true ]> emptyDisk).

Definition uploadWorld : World.world := boot diskWithUpload.

(** A disk on which the process may not search [images/private]. *)
Definition diskWithPrivate : Fs.tree :=
  <[ ["var"; "lib"; "ghost"; "content"; "images"; "private"; "a.gif"]
     := Fs.File true sample ]>
    (<[ ["var"; "lib"; "ghost"; "content"; "images"; "private"]
        := Fs.Dir false ]> emptyDisk).

End Ghost.

(** * Statements

    The notions the properties of the adapter are stated with. *)

Import Js Errors World Host LocalFileStore.

(** ** Public URLs *)

(** The URL [u] starts with a slash, and any character of it that is the
    host's path separator is a forward slash. *)
Definition forward_slashed {path : PathModule} (u : string) : Prop :=
  startsWith "/" u = true ∧ ∀ c, c ∈ chars u → c = sep → c = slash.

(** ** Error translation *)

(** The outcomes the handler of [serve] owes to the next handler, by the
    status code of the primitive's error. *)
Inductive serve_spec : option static_error → option ghost_error → Prop :=
| serve_no_error : serve_spec None None
| serve_not_found e o :
    statusCode e = JNum 404 → property o = Some (Errors.path e) →
    serve_spec (Some e) (Some (NotFoundError o))
| serve_bad_request e o :
    statusCode e = JNum 400 → err o = Some (StaticCause e) →
    serve_spec (Some e) (Some (BadRequestError o))
| serve_forbidden e o :
    statusCode e = JNum 403 → err o = Some (StaticCause e) →
    serve_spec (Some e) (Some (NoPermissionError o))
| serve_other e o :
    statusCode e ≠ JNum 404 → statusCode e ≠ JNum 400 →
    statusCode e ≠ JNum 403 → err o = Some (StaticCause e) →
    serve_spec (Some e) (Some (GhostError o)).

(** The typed errors assigned to a failed read of the relative path [P],
    by the code of the file system's error. *)
Inductive read_spec (P : string) (e : Fs.error) : ghost_error → Prop :=
| read_not_found o :
    Fs.code e = Some "ENOENT" ∨ Fs.code e = Some "ENOTDIR" →
    err o = Some (FsCause e) →
    message o = Some ("Image not found: " +:+ P) →
    read_spec P e (NotFoundError o)
| read_bad_request o :
    Fs.code e = Some "ENAMETOOLONG" → err o = Some (FsCause e) →
    read_spec P e (BadRequestError o)
| read_no_permission o :
    Fs.code e = Some "EACCES" → err o = Some (FsCause e) →
    read_spec P e (NoPermissionError o)
| read_other o :
    Fs.code e ≠ Some "ENOENT" → Fs.code e ≠ Some "ENOTDIR" →
    Fs.code e ≠ Some "ENAMETOOLONG" → Fs.code e ≠ Some "EACCES" →
    err o = Some (FsCause e) →
    message o = Some ("Could not read image: " +:+ P) →
    read_spec P e (GhostError o).

(** ** The argument of [read] *)

(** [options.path] as the caller passed it, if any. *)
Definition requested (options : option loc) (w : world) : option string :=
  l ← options; o ← heap w !! l; opt_path o.

(** The relative path [read] works with. *)
Definition relative_path (options : option loc) (w : world) : string :=
  strip_trailing (or_else (requested options w) "").

(** The object [read] assigns to: the caller's, or a fresh one. *)
Definition read_object (options : option loc) (w : world) : loc :=
  match options with
  | Some l => l
  | None => fresh (dom (heap w))
  end.

(** The caller holds the object [o] at [l]. *)
Definition with_object (l : loc) (o : options) (w : world) : world :=
  {| cwd := cwd w; files := files w; heap := <[l := o]> (heap w);
     log := log w |}.

(** The caller holds an options object [{path: p}] at [l]. *)
Definition with_options (l : loc) (p : string) (w : world) : world :=
  with_object l {| opt_path := Some p |} w.

(** ** Effects on the disk *)

(** A computation that only looks: it leaves the disk and the working
    directory as they are. *)
Definition read_only {A} (m : M A) : Prop :=
  ∀ w, files (snd (m w)) = files w ∧ cwd (snd (m w)) = cwd w.

(** The file system calls that running [m] in [w] adds to the log. *)
Definition new_calls {A} (m : M A) (w : world) : list fs_call :=
  drop (length (log w)) (log (snd (m w))).




(** A name without a slash: splitting it yields the name itself. *)
Definition slash_free (x : string) : Prop := split_slash x = [x].

(** A segment that [normalizeString] keeps as it is. *)
Definition plain (x : string) : Prop :=
  x ≠ "" ∧ x ≠ "." ∧ x ≠ ".." ∧ slash_free x.

(** ** What stays on the disk *)

(** The disk [t'] has everything [t] has: a directory is still that
    directory, a file is still a file (its content may differ). *)
Definition grows (t t' : Fs.tree) : Prop :=
  ∀ k n, t !! k = Some n →
    match n with
    | Fs.Dir perm => t' !! k = Some (Fs.Dir perm)
    | Fs.File _ _ => ∃ perm d, t' !! k = Some (Fs.File perm d)
    end.

(** The entries of [t] other than the one at [key] are the same in [t']. *)
Definition same_elsewhere (key : list string) (t t' : Fs.tree) : Prop :=
  ∀ k n, k ≠ key → t !! k = Some n → t' !! k = Some n.

(** ** Stripping, said without the function *)

(** [stripped p p']: [p'] is [p] without its one trailing slash or
    backslash, or [p] itself when it ends in neither. *)
Inductive stripped : string → string → Prop :=
| stripped_slash q : stripped (q +:+ "/") q
| stripped_backslash q : stripped (q +:+ "\") q
| stripped_nothing p :
    last_char p ≠ Some slash → last_char p ≠ Some backslash → stripped p p.

(** [hay.includes(needle)] *)
Fixpoint includes (needle hay : string) : bool :=
  match hay with
  | EmptyString => startsWith needle hay
  | String _ r => startsWith needle hay || includes needle r
  end.

(** What [read] settles with for the relative path [rel]: the thrown error
    when [fs.readFile] refuses the joined path, else what the callback makes
    of the outcome. *)
Definition read_settles (rel wd : string) (t : Fs.tree) (target : string)
    : promise Fs.bytes :=
  match Fs.validate target with
  | Some e => Rejected (Thrown e)
  | None => read_callback rel (Fs.readFile wd t target)
  end.

(** ** What the handler of [serve] owes *)

(** The primitive reported no error: it answered the request itself, or
    called back with nothing. *)
Definition without_error (o : static_outcome) : Prop :=
  o = Responded ∨ o = Callback None.

(** The call of [next] for each outcome of the primitive. *)
Inductive serve_next_spec : static_outcome → next_call → Prop :=
| next_not_called : serve_next_spec Responded NotCalled
| next_called err r :
    serve_spec err r → serve_next_spec (Callback err) (Next r).

(** ** Relative paths that name something *)


(** * Properties *)

#[local] Arguments Ascii.eqb : simpl never.
#[local] Arguments String.eqb : simpl never.

(** ** The collaborators on concrete inputs *)

Section Examples.
Import Posix.

Example join_plain :
  join_paths ["/var/ghost/content/images"; "2024/03/photo.jpg"]
  = "/var/ghost/content/images/2024/03/photo.jpg".
Proof. reflexivity. Qed.

Example join_root_trailing_slash :
  join_paths ["/content/images/"; "a//b/./c/"] = "/content/images/a/b/c/".
Proof. reflexivity. Qed.

Example join_climbs :
  join_paths ["/content/images"; "../../etc/passwd"] = "/etc/passwd".
Proof. reflexivity. Qed.

Example join_empty_relative :
  join_paths ["/content/images"; ""] = "/content/images".
Proof. reflexivity. Qed.

Example dirname_file :
  dirname "/content/images/2024/03/photo.jpg" = "/content/images/2024/03".
Proof. reflexivity. Qed.

Example dirname_top : dirname "/images" = "/" /\ dirname "images" = ".".
Proof. split; reflexivity. Qed.

Example dirname_trailing : dirname "/a/b/" = "/a" /\ dirname "a//b" = "a/".
Proof. split; reflexivity. Qed.

Example relative_below :
  relative "/srv" "/content/images" "/content/images/2024/03/photo.jpg"
  = "2024/03/photo.jpg".
Proof. reflexivity. Qed.

Example relative_sibling :
  relative "/srv" "/content/images" "/content/tmp/x.png" = "../tmp/x.png".
Proof. reflexivity. Qed.

Example strip_examples :
  strip_trailing "dir/" = "dir" /\
  strip_trailing "dir\" = "dir" /\
  strip_trailing "dir//" = "dir/" /\
  strip_trailing "a/b" = "a/b".
Proof. repeat split; reflexivity. Qed.

Example tpl_example :
  tpl_img "Image not found: {img}" "missing/file.jpg"
  = "Image not found: missing/file.jpg".
Proof. reflexivity. Qed.

Example urlJoin_no_subdir :
  UrlUtils.urlJoin ["/"; ""; "content/images"; "2024/03/photo.jpg"]
  = "/content/images/2024/03/photo.jpg".
Proof. reflexivity. Qed.

Example urlJoin_subdir :
  UrlUtils.urlJoin ["/"; "/blog"; "content/images"; "a.png"]
  = "/blog/content/images/a.png".
Proof. reflexivity. Qed.

Example urlJoin_scheme :
  UrlUtils.urlJoin ["http://my-ghost-blog.com"; "/blog/"; "//x"]
  = "http://my-ghost-blog.com/blog/x".
Proof. reflexivity. Qed.

Example unique_name_parts :
  Reference.extname "my photo.gif" = ".gif" /\
  Reference.basename "my photo.gif" ".gif" = "my photo" /\
  Reference.getSanitizedFileName "my photo" = "my-photo" /\
  Reference.extname ".bashrc" = "" /\ Reference.extname ".." = "".
Proof. repeat split; reflexivity. Qed.

(** On a POSIX host only the forward slash is rewritten: a backslash in
    the relative path stays in the URL. *)
Example fullUrl_posix_backslash :
  Ghost.fullUrl "2024\photo.gif"
  = "/content/images/2024\photo.gif".
Proof. reflexivity. Qed.

(** A second save of the same name gets the next free name. *)
Example save_twice :
  let save := Ghost.save Ghost.upload None in
  fst (bind save (fun _ => save) (Ghost.boot Ghost.diskWithUpload))
  = Resolved "/content/images/2024/03/my-photo-1.gif".
Proof. vm_compute. reflexivity. Qed.

(** [exists] answers [false] when the directory may not be searched. *)
Example exists_permission_denied :
  fst (Ghost.exists_ "private/a.gif"
         None (Ghost.boot Ghost.diskWithPrivate)) = Resolved false /\
  Fs.stat "/var/lib/ghost" Ghost.diskWithPrivate
    "/var/lib/ghost/content/images/private/a.gif"
  = Fs.Err (Fs.errno "EACCES" "/var/lib/ghost/content/images/private/a.gif").
Proof. split; vm_compute; reflexivity. Qed.

(** A name longer than the file system allows is a bad request. *)
Example read_name_too_long :
  ∃ o, fst (Ghost.read (Some 1%positive)
              (with_options 1%positive
                 (string_of_list_ascii (replicate 300 "a"%char)) Ghost.world))
       = Rejected (Typed (BadRequestError o)).
Proof. eexists. vm_compute. reflexivity. Qed.

End Examples.

(** ** String facts *)

Lemma append_cons (c : ascii) (s t : string) :
  String c s +:+ t = String c (s +:+ t).
Proof. reflexivity. Qed.

Lemma append_empty_r (s : string) : s +:+ "" = s.
Proof.
  induction s as [|c s IH]; [reflexivity |].
  by rewrite append_cons, IH.
Qed.


Lemma replace_sep_only_slashes (sp : ascii) (s : string) (c : ascii) :
  c ∈ chars (replace_sep sp s) → c = sp → c = slash.
Proof.
  induction s as [|a s IH]; intros H Hsp.
  - by apply elem_of_nil in H.
  - change (c ∈ (if Ascii.eqb a sp then slash else a)
                  :: chars (replace_sep sp s)) in H.
    apply elem_of_cons in H as [Hc | Hc]; [| by apply IH].
    subst c. destruct (Ascii.eqb a sp) eqn:E; [reflexivity |].
    apply Ascii.eqb_neq in E. by rewrite Hsp in E.
Qed.

Lemma starts_with_slash (s : string) :
  startsWith "/" s = true ↔ ∃ r, s = String slash r.
Proof.
  destruct s as [|a s]; simpl.
  - split; [done | by intros [r Hr]].
  - rewrite andb_true_r. destruct (Ascii.eqb_spec "/" a) as [<- | Hne].
    + split; [by exists s | done].
    + split; [done | intros [r Hr]; injection Hr as -> ->; by destruct Hne].
Qed.

Lemma replace_sep_leading_slash (sp : ascii) (s : string) :
  startsWith "/" s = true → startsWith "/" (replace_sep sp s) = true.
Proof.
  intros [r ->]%starts_with_slash. apply starts_with_slash.
  exists (replace_sep sp r). simpl. by destruct (Ascii.eqb slash sp).
Qed.

Lemma urlJoin_leading_slash (a b c : string) :
  startsWith "/" (UrlUtils.urlJoin ["/"; a; b; c]) = true.
Proof.
  apply starts_with_slash.
  unfold UrlUtils.urlJoin, UrlUtils.fix_multiple_slashes. simpl. eauto.
Qed.

(** ** What a successful call went through *)

Section Runs.
Context {path : PathModule} {base : StorageBase} {static : StaticPrimitive}.
Variable config : Config.

Lemma saveRaw_resolved buffer targetPath w url w' :
  saveRaw config buffer targetPath w = (Resolved url, w') →
  let p := path_join [storagePath config; targetPath] in
  url = fullUrl config targetPath ∧
  ∃ t1 t2,
    Fs.mkdirs (cwd w) (files w) (path_dirname p) = (None, t1) ∧
    Fs.writeFile (cwd w) t1 p buffer = Fs.Ok t2 ∧
    w' = {| cwd := cwd w; files := t2; heap := heap w;
            log := log w ++ [Mkdirs (path_dirname p); WriteFile p] |}.
Proof.
  unfold saveRaw, await, bind, fs_mkdirs, fs_writeFile, ret, called.
  destruct (Fs.mkdirs _ _ _) as [[e|] t1]; simpl; [done |].
  destruct (Fs.writeFile _ _ _ _) as [t2|e] eqn:Hw; simpl; [| done].
  intros [= <- <-]. split; [done |]. exists t1, t2.
  by rewrite <- app_assoc.
Qed.

Lemma save_resolved image targetDir w url w' :
  save config image targetDir w = (Resolved url, w') →
  let dir := or_else targetDir (getTargetDir (storagePath config)) in
  ∃ filename w1 t2 t3,
    getUniqueFileName (exists_ config) image dir w = (Resolved filename, w1) ∧
    Fs.mkdirs (cwd w1) (files w1) dir = (None, t2) ∧
    Fs.copy (cwd w1) t2 (image_path image) filename = (None, t3) ∧
    files w' = t3 ∧ cwd w' = cwd w1 ∧ heap w' = heap w1 ∧
    url = fullUrl config (path_relative (storagePath config) filename).
Proof.
  unfold save, await, bind, fs_mkdirs, fs_copy, ret, called.
  destruct (getUniqueFileName _ _ _ _) as [[filename|r] w1]; [| done].
  destruct (Fs.mkdirs _ _ _) as [[e|] t2] eqn:Hm; simpl; [done |].
  destruct (Fs.copy _ _ _ _) as [[e|] t3] eqn:Hc; simpl; [done |].
  intros [= <- <-]. exists filename, w1, t2, t3. repeat split; done.
Qed.

End Runs.

(** ** Public URLs *)

Lemma fullUrl_forward_slashed {path : PathModule} config relativePath :
  forward_slashed (fullUrl config relativePath).
Proof.
  split.
  - apply replace_sep_leading_slash, urlJoin_leading_slash.
  - apply replace_sep_only_slashes.
Qed.

(** C3: on every host, the URL that a successful [saveRaw] or [save] returns
    starts with [/] and contains the host's path separator only in the form
    of the forward slash. *)
Theorem public_url_forward_slashes
    {path : PathModule} {base : StorageBase} config
    buffer targetPath image targetDir w url w' :
  saveRaw config buffer targetPath w = (Resolved url, w') ∨
  save config image targetDir w = (Resolved url, w') →
  forward_slashed url.
Proof.
  intros [H | H].
  - apply saveRaw_resolved in H as [-> _]. apply fullUrl_forward_slashed.
  - apply save_resolved in H as (? & ? & ? & ? & _ & _ & _ & _ & _ & _ & ->).
    apply fullUrl_forward_slashed.
Qed.

Lemma public_url_forward_slashes_witness :
  @forward_slashed Ghost.path "/content/images/2024/03/photo.gif".
Proof.
  apply (@public_url_forward_slashes Ghost.path Ghost.base
           Ghost.config Ghost.sample "2024/03/photo.gif" Ghost.upload None
           Ghost.world "/content/images/2024/03/photo.gif"
           (snd (Ghost.saveRaw Ghost.sample
                   "2024/03/photo.gif" Ghost.world))).
  left. vm_compute. reflexivity.
Defined.

(** Where the separator is the backslash, no backslash is left. *)
Lemma forward_slashed_no_backslash {path : PathModule} (u : string) :
  sep = backslash → forward_slashed u → backslash ∉ chars u.
Proof.
  intros Hsep [_ H] Hin. by specialize (H backslash Hin (eq_sym Hsep)).
Qed.

(** ** delete *)

(** C7: [delete] is rejected with the bare string ['not implemented'], which
    is none of the typed errors, and leaves the disk, the objects and the
    call log as they were. *)
Theorem delete_not_implemented (w : world) :
  delete w = (Rejected (Literal "not implemented"), w) ∧
  (∀ e : ghost_error, fst (delete w) ≠ Rejected (Typed e)) ∧
  files (snd (delete w)) = files w ∧ new_calls delete w = [].
Proof.
  repeat split; try done. unfold new_calls. simpl. apply drop_all.
Qed.

(** ** exists *)

(** C6: [exists] always resolves; with [true] exactly when [fs.stat] of the
    joined path succeeds, with [false] whenever it fails, whatever the
    error; and it leaves the disk as it was. *)
Theorem exists_never_rejects {path : PathModule} config fileName targetDir w :
  let filePath :=
    path_join [or_else targetDir (storagePath config); fileName] in
  let result := fst (exists_ config fileName targetDir w) in
  (∃ b, result = Resolved b) ∧
  (result = Resolved true ↔
   ∃ n, Fs.stat (cwd w) (files w) filePath = Fs.Ok n) ∧
  (∀ e, Fs.stat (cwd w) (files w) filePath = Fs.Err e →
        result = Resolved false) ∧
  files (snd (exists_ config fileName targetDir w)) = files w.
Proof.
  unfold exists_, bind, fs_stat, ret. simpl.
  destruct (Fs.stat _ _ _) as [n|e]; simpl; repeat split; eauto; try done.
  by intros [n Hn].
Qed.

Lemma exists_read_only {path : PathModule} config fileName targetDir :
  read_only (exists_ config fileName targetDir).
Proof.
  intros w. unfold exists_, bind, fs_stat, ret. simpl.
  by destruct (Fs.stat _ _ _).
Qed.

(** ** serve *)

Lemma serve_callback_spec (err : option static_error) :
  ∃ r, serve_callback err = Next r ∧ serve_spec err r.
Proof.
  destruct err as [e|]; simpl; [| eexists; split; [done | constructor]].
  unfold strict_eq. repeat case_bool_decide;
    eexists; (split; [reflexivity |]); by constructor.
Qed.

(** A file that is there is served by the primitive itself, which reports
    no error; [next] is then not called at all. *)
Lemma serve_served_file_skips_next :
  ¬ (∀ req w,
       without_error
         (fst (@serveStatic Reference.staticPrimitive
                 (storagePath Ghost.config)
                 {| maxAge := ONE_YEAR_MS; fallthrough := false |} req w)) →
       fst (Ghost.serve req w) = Next None).
Proof.
  intros H.
  specialize (H {| req_path := "/a.gif" |}
                (snd (Ghost.saveRaw Ghost.sample "a.gif" Ghost.world))).
  vm_compute in H. discriminate (H (or_introl eq_refl)).
Qed.

(** C5, amended: the handler calls [next] only from the callback of the
    static-serving primitive.  When the primitive answers the request
    itself (a file served), [next] is not called; when it calls back without
    an error, [next] is called without an argument; when it calls back with
    an error, [next] gets a NotFoundError carrying the path for status 404,
    a BadRequestError for 400, a NoPermissionError for 403, and the generic
    error wrapping the original for anything else. *)
Theorem serve_error_translation {static : StaticPrimitive} config req w :
  let outcome :=
    serveStatic (storagePath config)
      {| maxAge := ONE_YEAR_MS; fallthrough := false |} req w in
  serve_next_spec (fst outcome) (fst (serve config req w)) ∧
  snd (serve config req w) = snd outcome.
Proof.
  unfold serve, bind, ret.
  destruct (serveStatic _ _ _ _) as [[|err] w']; simpl.
  - split; [constructor | done].
  - destruct (serve_callback_spec err) as (r & -> & Hr).
    split; [by constructor | done].
Qed.

Lemma serve_error_translation_witness :
  serve_next_spec (Callback (Some Ghost.missing_error))
    (fst (Ghost.serve Ghost.missing Ghost.world)).
Proof.
  exact (proj1 (@serve_error_translation Reference.staticPrimitive
                  Ghost.config Ghost.missing Ghost.world)).
Defined.

(** ** read *)

Lemma read_run {path : PathModule} config options w :
  let rel := relative_path options w in
  let target := path_join [storagePath config; rel] in
  read config options w =
  (read_settles rel (cwd w) (files w) target,
   {| cwd := cwd w; files := files w;
      heap := <[read_object options w := {| opt_path := Some rel |}]> (heap w);
      log := log w ++ [ReadFile target] |}).
Proof.
  unfold read, relative_path, requested, bind, ret, get_path, set_path,
    new_object, fs_readFile, called, read_settles.
  destruct options as [l|]; simpl.
  - rewrite !lookup_insert_eq. simpl. by destruct (Fs.validate _).
  - rewrite !lookup_insert_eq. simpl. rewrite insert_insert_eq.
    by destruct (Fs.validate _).
Qed.

Lemma tpl_imageNotFoundWithRef img :
  tpl_img imageNotFoundWithRef img = "Image not found: " +:+ img.
Proof.
  unfold tpl_img, imageNotFoundWithRef. cbn. by rewrite append_empty_r.
Qed.

Lemma tpl_cannotReadImage img :
  tpl_img cannotReadImage img = "Could not read image: " +:+ img.
Proof.
  unfold tpl_img, cannotReadImage. cbn. by rewrite append_empty_r.
Qed.

Lemma read_callback_spec img e :
  ∃ g, read_callback img (Fs.Err e) = Rejected (Typed g) ∧
       read_spec img e g.
Proof.
  unfold read_callback, code_is.
  repeat case_bool_decide; simpl; eexists; (split; [reflexivity |]);
    first
      [ apply read_not_found;
        [ by (left + right) | done | by rewrite tpl_imageNotFoundWithRef ]
      | by apply read_bad_request
      | by apply read_no_permission
      | apply read_other; try done; simpl; by rewrite tpl_cannotReadImage ].
Qed.

(** ** Facts about the disk *)

Lemma walk_insert (t : Fs.tree) p q cur rest x n :
  rest ≠ [] →
  Fs.walk t p cur rest = Fs.Ok x →
  Fs.walk (<[cur ++ rest := n]> t) q cur rest = Fs.Ok (Some n).
Proof.
  revert cur. induction rest as [|c rest IH]; intros cur Hne; [done |].
  simpl. destruct (Fs.too_long c); [done |].
  destruct rest as [|c2 rest].
  - intros _. by rewrite lookup_insert_eq.
  - rewrite lookup_insert_ne.
    2:{ intros Heq. apply (f_equal length) in Heq.
        rewrite !length_app in Heq. simpl in Heq. lia. }
    destruct (t !! (cur ++ [c])) as [[perm d|[|]]|]; try done.
    intros Hw. specialize (IH (cur ++ [c])).
    rewrite <- app_assoc in IH. simpl in IH. by apply IH.
Qed.

Lemma writeFile_segs (wd : string) (t t' : Fs.tree) (p : string) data :
  Fs.writeFile wd t p data = Fs.Ok t' →
  ∃ tg x, Fs.locate wd p = Fs.Ok tg ∧ Fs.segs tg ≠ [] ∧
          Fs.must_be_dir tg = false ∧
          Fs.walk t p [] (Fs.segs tg) = Fs.Ok x ∧
          (∀ perm, x ≠ Some (Fs.Dir perm)) ∧
          t' = <[Fs.segs tg := Fs.File true data]> t.
Proof.
  unfold Fs.writeFile, Fs.lookup_path.
  destruct (Fs.locate wd p) as [tg|e]; [| done].
  destruct (Fs.walk t p [] (Fs.segs tg)) as [x|e] eqn:Hw; [| done].
  intros H. exists tg, x.
  assert (Fs.segs tg ≠ []) as Hne.
  { intros Hnil. rewrite Hnil in Hw. simpl in Hw. by injection Hw as <-. }
  destruct x as [[perm d|perm]|]; [| done |];
    destruct (Fs.must_be_dir tg); try done.
  - destruct perm; [| done]. injection H as <-. by repeat split.
  - injection H as <-. by repeat split.
Qed.

(** What [fs.writeFile] stored, [fs.readFile] returns. *)
Lemma writeFile_readFile (wd : string) (t t' : Fs.tree) (p : string) data :
  Fs.writeFile wd t p data = Fs.Ok t' → Fs.readFile wd t' p = Fs.Ok data.
Proof.
  intros (tg & x & Hl & Hne & Hd & Hw & _ & ->)%writeFile_segs.
  unfold Fs.readFile, Fs.lookup_path. rewrite Hl.
  pose proof (walk_insert t p p [] (Fs.segs tg) x (Fs.File true data) Hne Hw)
    as Hw'.
  simpl in Hw'. rewrite Hw'. by rewrite Hd.
Qed.

(** What [locate] checked when it lets a path through. *)
Lemma locate_ok (wd p : string) tg :
  Fs.locate wd p = Fs.Ok tg →
  non_empty p = true ∧
  Fs.has_nul (if Posix.isAbsolute p then p else wd +:+ "/" +:+ p) = false ∧
  Nat.leb Fs.PATH_MAX (String.length p) = false ∧
  tg = {| Fs.segs := Posix.resolve_segs wd p;
          Fs.must_be_dir := Posix.ends_with_slash p |}.
Proof.
  unfold Fs.locate. destruct (non_empty p); [| done]. simpl negb.
  destruct (Fs.has_nul _); [done |].
  destruct (Nat.leb _ _); [done |]. by intros [= <-].
Qed.

Lemma has_nul_app (a b : string) :
  Fs.has_nul (a +:+ b) = Fs.has_nul a || Fs.has_nul b.
Proof.
  induction a as [|c a IH]; [done |].
  rewrite append_cons. simpl. by rewrite IH, orb_assoc.
Qed.

(** A path that reached the system had passed Node's check. *)
Lemma locate_validate (wd p : string) tg :
  Fs.locate wd p = Fs.Ok tg → Fs.validate p = None.
Proof.
  intros (_ & Hn & _)%locate_ok. unfold Fs.validate.
  destruct (Posix.isAbsolute p); [by rewrite Hn |].
  rewrite !has_nul_app in Hn. apply orb_false_elim in Hn as [_ Hn].
  apply orb_false_elim in Hn as [_ Hn]. by rewrite Hn.
Qed.

Lemma writeFile_validate (wd : string) (t t' : Fs.tree) (p : string) data :
  Fs.writeFile wd t p data = Fs.Ok t' → Fs.validate p = None.
Proof.
  unfold Fs.writeFile, Fs.lookup_path.
  destruct (Fs.locate wd p) as [tg|e] eqn:Hl; [| done].
  intros _. by eapply locate_validate.
Qed.

Lemma writeFile_no_trailing_slash (wd : string) (t t' : Fs.tree) (p : string)
    data :
  Fs.writeFile wd t p data = Fs.Ok t' → Posix.ends_with_slash p = false.
Proof.
  intros (tg & x & Hl & _ & Hd & _)%writeFile_segs.
  apply locate_ok in Hl as (_ & _ & _ & ->). done.
Qed.

(** ** Trailing slashes *)

Lemma last_char_app (a b : string) :
  non_empty b = true → last_char (a +:+ b) = last_char b.
Proof.
  intros Hb. induction a as [|c a IH]; [done |].
  rewrite append_cons.
  change (match a +:+ b with
          | EmptyString => Some c
          | String _ _ => last_char (a +:+ b)
          end = last_char b).
  destruct (a +:+ b) eqn:E; [| done].
  destruct a as [|c' a]; [| done].
  change (b = "") in E. rewrite E in Hb. done.
Qed.

Lemma non_empty_app_r (a b : string) :
  non_empty b = true → non_empty (a +:+ b) = true.
Proof. by destruct a. Qed.

Lemma ends_with_slash_app (a b : string) :
  non_empty b = true →
  Posix.ends_with_slash (a +:+ b) = Posix.ends_with_slash b.
Proof. intros Hb. unfold Posix.ends_with_slash. by rewrite last_char_app. Qed.

Lemma ends_with_slash_non_empty (p : string) :
  Posix.ends_with_slash p = true → non_empty p = true.
Proof. by destruct p. Qed.

Lemma normalize_keeps_trailing_slash (p : string) :
  Posix.ends_with_slash p = true →
  Posix.ends_with_slash (Posix.normalize p) = true.
Proof.
  intros H. unfold Posix.normalize.
  rewrite (ends_with_slash_non_empty p H), H.
  destruct (non_empty (Posix.normalizeString _ _)).
  - rewrite ends_with_slash_app; [| by apply non_empty_app_r].
    by rewrite ends_with_slash_app.
  - by destruct (Posix.isAbsolute p).
Qed.

Lemma join_paths_keeps_trailing_slash (root P : string) :
  Posix.ends_with_slash P = true →
  Posix.ends_with_slash (Posix.join_paths [root; P]) = true.
Proof.
  intros H. pose proof (ends_with_slash_non_empty P H) as HP.
  unfold Posix.join_paths.
  destruct root as [|c root]; destruct P as [|c' P]; try done.
  - by apply normalize_keeps_trailing_slash.
  - apply normalize_keeps_trailing_slash.
    change (Posix.ends_with_slash
              (String c root +:+ ("/" +:+ String c' P)) = true).
    rewrite ends_with_slash_app; [| done].
    by rewrite ends_with_slash_app.
Qed.

Lemma strip_trailing_snoc (P : string) (c : ascii) :
  c = slash ∨ c = backslash →
  strip_trailing (P +:+ String c "") = P.
Proof.
  intros Hc. induction P as [|a P IH].
  - simpl. by destruct Hc as [-> | ->].
  - rewrite append_cons. simpl. rewrite IH.
    by destruct (P +:+ String c "") eqn:E; [destruct P |].
Qed.

Lemma strip_trailing_slash (P : string) : strip_trailing (P +:+ "/") = P.
Proof. apply (strip_trailing_snoc P slash). by left. Qed.

Lemma strip_trailing_backslash (P : string) : strip_trailing (P +:+ "\") = P.
Proof. apply (strip_trailing_snoc P backslash). by right. Qed.

Lemma strip_trailing_id (P : string) :
  last_char P ≠ Some slash → last_char P ≠ Some backslash →
  strip_trailing P = P.
Proof.
  induction P as [|a P IH]; [done |]. simpl.
  destruct P as [|b P].
  - intros H1 H2.
    destruct (Ascii.eqb_spec a slash) as [-> | _]; [done |].
    by destruct (Ascii.eqb_spec a backslash) as [-> | _].
  - intros H1 H2. by rewrite IH.
Qed.

Lemma ends_with_slash_false (P : string) :
  Posix.ends_with_slash P = false → last_char P ≠ Some slash.
Proof.
  unfold Posix.ends_with_slash, is_slash. intros H Hl. rewrite Hl in H.
  by rewrite Ascii.eqb_refl in H.
Qed.

Lemma ends_with_slash_true (P : string) :
  last_char P = Some slash → Posix.ends_with_slash P = true.
Proof.
  unfold Posix.ends_with_slash, is_slash. intros ->. apply Ascii.eqb_refl.
Qed.

Lemma relative_path_with_options l p w :
  relative_path (Some l) (with_options l p w) = strip_trailing p.
Proof.
  unfold relative_path, requested, with_options, with_object. simpl.
  rewrite lookup_insert_eq. simpl. by destruct p.
Qed.

Lemma read_with_options {path : PathModule} config l p w :
  let rel := strip_trailing p in
  let target := path_join [storagePath config; rel] in
  read config (Some l) (with_options l p w) =
  (read_settles rel (cwd w) (files w) target,
   {| cwd := cwd w; files := files w;
      heap := <[l := {| opt_path := Some rel |}]> (heap w);
      log := log w ++ [ReadFile target] |}).
Proof.
  rewrite read_run, relative_path_with_options.
  unfold with_options, with_object. simpl. by rewrite insert_insert_eq.
Qed.

Lemma stripped_strip_trailing (p p' : string) :
  stripped p p' → strip_trailing p = p'.
Proof.
  intros [q | q | q H1 H2].
  - apply strip_trailing_slash.
  - apply strip_trailing_backslash.
  - by apply strip_trailing_id.
Qed.

(** C10: [read] assigns to [options.path] of the object it was given: a
    path [q/] or [q\] becomes [q], a path that ends in neither a slash nor a
    backslash stays, an absent path becomes the empty string.  Without an
    argument, or without a [path] field, [read] goes on to read the storage
    root joined with the empty path rather than fail, leaving the caller's
    other objects alone. *)
Theorem read_mutates_options {path : PathModule} config l q w :
  let target := path_join [storagePath config; ""] in
  let after p := heap (snd (read config (Some l) (with_options l p w))) !! l in
  let no_path := with_object l {| opt_path := None |} w in
  after (q +:+ "/") = Some {| opt_path := Some q |} ∧
  after (q +:+ "\") = Some {| opt_path := Some q |} ∧
  (last_char q ≠ Some slash → last_char q ≠ Some backslash →
   after q = Some {| opt_path := Some q |}) ∧
  heap (snd (read config (Some l) no_path)) !! l
  = Some {| opt_path := Some "" |} ∧
  fst (read config (Some l) no_path)
  = read_settles "" (cwd w) (files w) target ∧
  fst (read config None w) = read_settles "" (cwd w) (files w) target ∧
  new_calls (read config None) w = [ReadFile target] ∧
  (∀ l', is_Some (heap w !! l') →
         heap (snd (read config None w)) !! l' = heap w !! l').
Proof.
  intros target after no_path. unfold after, no_path.
  rewrite !read_with_options, !read_run.
  unfold relative_path, requested, with_object, new_calls. simpl.
  rewrite !lookup_insert_eq. simpl. rewrite drop_app_length.
  rewrite strip_trailing_slash, strip_trailing_backslash.
  repeat split; try done.
  - intros H1 H2. by rewrite strip_trailing_id.
  - intros l' Hl'. rewrite lookup_insert_ne; [done |].
    intros <-. apply elem_of_dom in Hl'. by apply is_fresh in Hl'.
Qed.

(** The message of a rejected [read] names the stripped path, not the path
    as it was passed; and a path that [fs.readFile] refuses outright makes
    the call throw, so that the rejection is the raw error. *)
Lemma read_message_names_stripped_path :
  (∃ o m,
     fst (Ghost.read (Some 1%positive)
            (with_options 1%positive "missing/" Ghost.world))
     = Rejected (Typed (NotFoundError o)) ∧
     message o = Some m ∧ includes "missing/" m = false) ∧
  (∃ e,
     fst (Ghost.read (Some 1%positive)
            (with_options 1%positive (String Ascii.zero "") Ghost.world))
     = Rejected (Thrown e)).
Proof.
  split.
  - eexists _, _. split; [vm_compute; reflexivity |].
    split; [reflexivity | vm_compute; reflexivity].
  - eexists. vm_compute. reflexivity.
Qed.

(** C2, amended: when [fs.readFile] reports an error to the callback of
    [read], the promise is rejected with the typed error that the error code
    selects: ENOENT and ENOTDIR give a NotFoundError, ENAMETOOLONG a
    BadRequestError, EACCES a NoPermissionError, every other error the
    generic error; each wraps the original error, and the messages of the
    NotFoundError and of the generic error name the path with its one
    trailing slash or backslash removed.  When [fs.readFile] refuses the
    path and throws, the promise is rejected with what was thrown. *)
Theorem read_error_classification {path : PathModule} config options w P' :
  let target := path_join [storagePath config; P'] in
  stripped (or_else (requested options w) "") P' →
  (∀ e, Fs.validate target = None →
        Fs.readFile (cwd w) (files w) target = Fs.Err e →
        ∃ g, fst (read config options w) = Rejected (Typed g) ∧
             read_spec P' e g) ∧
  (∀ e, Fs.validate target = Some e →
        fst (read config options w) = Rejected (Thrown e)).
Proof.
  intros target Hs. apply stripped_strip_trailing in Hs.
  rewrite read_run. unfold relative_path. rewrite Hs. fold target.
  unfold read_settles. simpl. split.
  - intros e -> ->. apply read_callback_spec.
  - by intros e ->.
Qed.

Lemma read_error_classification_witness :
  ∃ g, fst (Ghost.read (Some 1%positive)
              (with_options 1%positive "missing/file.jpg/" Ghost.world))
       = Rejected (Typed g) ∧
       read_spec "missing/file.jpg"
         (Fs.errno "ENOENT" "/var/lib/ghost/content/images/missing/file.jpg") g.
Proof.
  refine (proj1 (@read_error_classification Ghost.path Ghost.config
                   (Some 1%positive)
                   (with_options 1%positive "missing/file.jpg/" Ghost.world)
                   "missing/file.jpg" _) _ _ _).
  - apply (stripped_slash "missing/file.jpg").
  - vm_compute. reflexivity.
  - vm_compute. reflexivity.
Defined.

(** ** Round trip *)

(** The round trip fails for a trailing backslash: [saveRaw(sample, 'a\')]
    succeeds on a POSIX host, where the backslash is an ordinary character
    of a file name, and [read({path: 'a\'})] then looks for the file [a]. *)
Lemma roundtrip_fails_on_trailing_backslash :
  ¬ (∀ (buffer : Fs.bytes) (P : string) (w w1 : world) (url : string)
       (l : loc),
       Ghost.saveRaw buffer P w = (Resolved url, w1) →
       fst (Ghost.read (Some l) (with_options l P w1))
       = Resolved buffer).
Proof.
  intros H.
  specialize (H Ghost.sample "a\" Ghost.world
                (snd (Ghost.saveRaw Ghost.sample "a\" Ghost.world))
                "/content/images/a\" 1%positive).
  vm_compute in H. by specialize (H eq_refl).
Qed.

(** C1, amended: for a relative path that does not end in a backslash, what
    a successful [saveRaw] stored is what a following [read] of the same
    path returns. *)
Theorem saveRaw_read_roundtrip (wd : string) config buffer P w url w1 l :
  last_char P ≠ Some backslash →
  @saveRaw (Posix.posix wd) config buffer P w = (Resolved url, w1) →
  fst (@read (Posix.posix wd) config (Some l) (with_options l P w1))
  = Resolved buffer.
Proof.
  intros Hb Hs.
  apply saveRaw_resolved in Hs as (_ & t1 & t2 & _ & Hw & ->).
  rewrite read_with_options. simpl.
  rewrite strip_trailing_id; [| | done].
  - pose proof (writeFile_validate _ _ _ _ _ Hw) as Hv.
    unfold read_settles. simpl in Hv |- *. rewrite Hv.
    by erewrite writeFile_readFile; [| exact Hw].
  - intros Hl. apply writeFile_no_trailing_slash in Hw.
    pose proof (join_paths_keeps_trailing_slash
                  (storagePath config) P (ends_with_slash_true P Hl)) as Hj.
    simpl in Hw. congruence.
Qed.

Lemma saveRaw_read_roundtrip_witness :
  fst (Ghost.read (Some 1%positive)
         (with_options 1%positive "2024/03/photo.gif"
            (snd (Ghost.saveRaw Ghost.sample "2024/03/photo.gif"
                    Ghost.world))))
  = Resolved Ghost.sample.
Proof.
  eapply (saveRaw_read_roundtrip "/var/lib/ghost" Ghost.config Ghost.sample
            "2024/03/photo.gif" Ghost.world
            "/content/images/2024/03/photo.gif").
  - vm_compute. discriminate.
  - vm_compute. reflexivity.
Defined.

(** ** Trailing slashes in [read] *)

(** Only one slash is stripped: with the file [dir] on disk,
    [read({path: 'dir//'})] looks for the directory [dir/] and fails, while
    [read({path: 'dir/'})] returns the file. *)
Lemma read_strips_one_slash_only :
  let w := snd (Ghost.saveRaw Ghost.sample "dir" Ghost.world) in
  let P := "dir/" in
  fst (Ghost.read (Some 1%positive)
         (with_options 1%positive (P +:+ "/") w))
  ≠ fst (Ghost.read (Some 1%positive)
           (with_options 1%positive P w)).
Proof. vm_compute. discriminate. Qed.

(** C8, amended: one trailing slash or backslash is removed from the path
    before it is joined; so for a path [P] that does not itself end in a
    slash or backslash, reading [P/] or [P\] is the same as reading [P]:
    same outcome, same calls, same final state. *)
Theorem read_ignores_trailing_slash {path : PathModule} config P l w :
  last_char P ≠ Some slash → last_char P ≠ Some backslash →
  read config (Some l) (with_options l (P +:+ "/") w)
  = read config (Some l) (with_options l P w) ∧
  read config (Some l) (with_options l (P +:+ "\") w)
  = read config (Some l) (with_options l P w).
Proof.
  intros H1 H2. rewrite !read_with_options.
  by rewrite strip_trailing_slash, strip_trailing_backslash,
    (strip_trailing_id P).
Qed.

Lemma read_ignores_trailing_slash_witness :
  Ghost.read (Some 1%positive)
    (with_options 1%positive ("dir" +:+ "/") Ghost.world)
  = Ghost.read (Some 1%positive)
      (with_options 1%positive "dir" Ghost.world).
Proof.
  refine (proj1 (@read_ignores_trailing_slash Ghost.path Ghost.config "dir"
                   1%positive Ghost.world _ _)); vm_compute; discriminate.
Defined.

(** ** Copies *)

Lemma walk_lookup (t : Fs.tree) p cur rest x :
  rest ≠ [] → Fs.walk t p cur rest = Fs.Ok x → x = t !! (cur ++ rest).
Proof.
  revert cur. induction rest as [|c rest IH]; intros cur Hne; [done |].
  simpl. destruct (Fs.too_long c); [done |].
  destruct rest as [|c2 rest]; [by intros [= <-] |].
  destruct (t !! (cur ++ [c])) as [[perm d|[|]]|]; try done.
  intros Hw. apply IH in Hw; [| done]. by rewrite <- app_assoc in Hw.
Qed.

Lemma stat_file (wd : string) (t : Fs.tree) (p : string) perm data :
  Fs.stat wd t p = Fs.Ok (Fs.File perm data) →
  t !! Posix.resolve_segs wd p = Some (Fs.File perm data).
Proof.
  unfold Fs.stat, Fs.lookup_path.
  destruct (Fs.locate wd p) as [tg|e] eqn:Hl; [| done].
  apply locate_ok in Hl as (_ & _ & _ & ->). simpl.
  destruct (Fs.walk _ _ _ _) as [x|e] eqn:Hw; [| done].
  destruct x as [[perm' d|perm']|]; try done.
  destruct (Posix.ends_with_slash p); [done |].
  intros [= -> ->].
  destruct (Posix.resolve_segs wd p) as [|c segs] eqn:Hs; [done |].
  by apply walk_lookup in Hw.
Qed.

Lemma mkdirp_preserves (t t' : Fs.tree) p cur rest r k n :
  Fs.mkdirp t p cur rest = (r, t') → t !! k = Some n → t' !! k = Some n.
Proof.
  revert t cur. induction rest as [|c rest IH]; intros t cur; simpl.
  - by intros [= _ <-].
  - destruct (Fs.too_long c); [by intros [= _ <-] |].
    destruct (t !! (cur ++ [c])) as [[perm d|[|]]|] eqn:Hl.
    + destruct rest; by intros [= _ <-].
    + apply IH.
    + destruct rest; by intros [= _ <-].
    + intros Hm Hk. eapply IH; [exact Hm |].
      rewrite lookup_insert_ne; [done |]. intros <-. congruence.
Qed.

Lemma mkdirp_adds_directories (t t' : Fs.tree) p cur rest r k perm data :
  Fs.mkdirp t p cur rest = (r, t') →
  t' !! k = Some (Fs.File perm data) → t !! k = Some (Fs.File perm data).
Proof.
  revert t cur. induction rest as [|c rest IH]; intros t cur; simpl.
  - by intros [= _ <-].
  - destruct (Fs.too_long c); [by intros [= _ <-] |].
    destruct (t !! (cur ++ [c])) as [[perm' d|[|]]|] eqn:Hl.
    + destruct rest; by intros [= _ <-].
    + apply IH.
    + destruct rest; by intros [= _ <-].
    + intros Hm Hk. specialize (IH _ _ Hm Hk).
      rewrite lookup_insert in IH. by case_decide.
Qed.

Lemma mkdirs_preserves (wd : string) (t t' : Fs.tree) (p : string) r k n :
  Fs.mkdirs wd t p = (r, t') → t !! k = Some n → t' !! k = Some n.
Proof.
  unfold Fs.mkdirs. destruct (Fs.locate wd p); [| by intros [= _ <-]].
  apply mkdirp_preserves.
Qed.

Lemma mkdirs_adds_directories (wd : string) (t t' : Fs.tree) (p : string)
    r k perm data :
  Fs.mkdirs wd t p = (r, t') →
  t' !! k = Some (Fs.File perm data) → t !! k = Some (Fs.File perm data).
Proof.
  unfold Fs.mkdirs. destruct (Fs.locate wd p); [| by intros [= _ <-]].
  apply mkdirp_adds_directories.
Qed.

Lemma locate_segs (wd p : string) tg :
  Fs.locate wd p = Fs.Ok tg → Fs.segs tg = Posix.resolve_segs wd p.
Proof.
  by intros (_ & _ & _ & ->)%locate_ok.
Qed.

(** What a successful [fs.copy] went through. *)
Lemma copy_done (wd : string) (t t3 : Fs.tree) (src dest : string) :
  Fs.copy wd t src dest = (None, t3) →
  ∃ data t',
    Fs.stat wd t src = Fs.Ok (Fs.File true data) ∧
    Posix.resolve_segs wd src ≠ Posix.resolve_segs wd dest ∧
    Fs.mkdirs wd t (Posix.dirname dest) = (None, t') ∧
    Fs.writeFile wd t' dest data = Fs.Ok t3.
Proof.
  unfold Fs.copy.
  destruct (Fs.stat wd t src) as [[perm data|perm]|e]; try done.
  destruct (Fs.locate wd dest) as [tg|e] eqn:Hl; [| done].
  rewrite (locate_segs _ _ _ Hl).
  case_decide as Hne; [done |].
  assert (∀ r : option Fs.error * Fs.tree,
            match Fs.mkdirs wd t (Posix.dirname dest) with
            | (Some e, t') => (Some e, t')
            | (None, t') =>
                if perm then
                  match Fs.writeFile wd t' dest data with
                  | Fs.Ok t'' => (None, t'')
                  | Fs.Err e => (Some e, t')
                  end
                else (Some (Fs.errno "EACCES" src), t')
            end = (None, t3) →
            ∃ t', perm = true ∧
                  Fs.mkdirs wd t (Posix.dirname dest) = (None, t') ∧
                  Fs.writeFile wd t' dest data = Fs.Ok t3) as Hrest.
  { intros _. destruct (Fs.mkdirs _ _ _) as [[e|] t']; [done |].
    destruct perm; [| done].
    destruct (Fs.writeFile _ _ _ _) as [t''|e] eqn:Hw; [| done].
    intros [= <-]. by exists t'. }
  intros H.
  assert (∃ t', perm = true ∧
                Fs.mkdirs wd t (Posix.dirname dest) = (None, t') ∧
                Fs.writeFile wd t' dest data = Fs.Ok t3) as (t' & -> & Hm & Hw).
  { destruct (Fs.stat wd t dest) as [[? ?|?]|?]; try done;
      by apply (Hrest (None, t3)). }
  by exists data, t'.
Qed.

(** ** save *)

Lemma generateUnique_read_only {path : PathModule} fuel probe dir name ext i :
  (∀ f d, read_only (probe f d)) →
  read_only (Reference.generateUnique fuel probe dir name ext i).
Proof.
  intros Hp. revert i. induction fuel as [|fuel IH]; intros i w; simpl;
    unfold await, bind, ret;
    pose proof (Hp (name +:+ (if Nat.eqb i 0 then "" else "-" +:+ pretty i)
                      +:+ ext) (Some dir) w) as Hw;
    destruct (probe _ _ w) as [[[|]|r] w1]; simpl in *; try done.
  destruct (IH (i + 1) w1) as [H1 H2]. destruct Hw as [H3 H4].
  split; congruence.
Qed.

Lemma getUniqueFileName_read_only {path : PathModule} probe image dir :
  (∀ f d, read_only (probe f d)) →
  read_only (Reference.getUniqueFileName probe image dir).
Proof.
  intros Hp w. unfold Reference.getUniqueFileName.
  by apply generateUnique_read_only.
Qed.



(** ** Paths under a root *)

Lemma split_slash_not_nil (s : string) : split_slash s ≠ [].
Proof.
  induction s as [|c s IH]; simpl; [done |].
  destruct (is_slash c); [done |]. by destruct (split_slash s).
Qed.

Lemma split_slash_app (a b : string) :
  split_slash (a +:+ "/" +:+ b) = split_slash a ++ split_slash b.
Proof.
  induction a as [|c a IH].
  - reflexivity.
  - rewrite append_cons. simpl. rewrite IH.
    destruct (is_slash c); [done |].
    pose proof (split_slash_not_nil a). by destruct (split_slash a).
Qed.

Lemma split_slash_pieces (s : string) : Forall slash_free (split_slash s).
Proof.
  induction s as [|c s IH]; simpl.
  - by constructor.
  - destruct (is_slash c) eqn:Hc; [by constructor |].
    pose proof (split_slash_not_nil s).
    destruct (split_slash s) as [|h t]; [done |].
    inversion IH as [|? ? Hh Ht]; subst. constructor; [| done].
    unfold slash_free in *. simpl. by rewrite Hc, Hh.
Qed.

Lemma split_slash_join (S : list string) :
  S ≠ [] → Forall slash_free S → split_slash (join "/" S) = S.
Proof.
  induction S as [|x S IH]; [done |]. intros _ Hf.
  inversion Hf as [|? ? Hx HS]; subst.
  destruct S as [|y S]; [exact Hx |].
  change (join "/" (x :: y :: S)) with (x +:+ "/" +:+ join "/" (y :: S)).
  rewrite split_slash_app, Hx, IH; done.
Qed.

Lemma normalizeSegs_app a acc A B :
  Posix.normalizeSegs a acc (A ++ B)
  = Posix.normalizeSegs a (rev (Posix.normalizeSegs a acc A)) B.
Proof.
  revert acc. induction A as [|s A IH]; intros acc; simpl.
  - by rewrite rev_involutive.
  - destruct (String.eqb s "" || String.eqb s "."); [apply IH |].
    destruct (String.eqb s ".."); [| apply IH].
    destruct acc as [|x acc]; [apply IH |].
    destruct (String.eqb x ".."); apply IH.
Qed.

Lemma normalizeSegs_no_dotdot a acc B :
  ".." ∉ B →
  Posix.normalizeSegs a acc B
  = rev acc ++ filter (λ s, s ≠ "" ∧ s ≠ ".") B.
Proof.
  revert acc. induction B as [|s B IH]; intros acc Hn; simpl.
  - by rewrite app_nil_r.
  - apply not_elem_of_cons in Hn as [Hs HB].
    destruct (String.eqb_spec s "") as [-> | H1]; simpl.
    { rewrite filter_cons_False; [by apply IH | by intros [? _]]. }
    destruct (String.eqb_spec s ".") as [-> | H2]; simpl.
    { rewrite filter_cons_False; [by apply IH | by intros [_ ?]]. }
    destruct (String.eqb_spec s "..") as [-> | _]; [done |].
    rewrite filter_cons_True by done. rewrite IH by done.
    simpl. by rewrite <- app_assoc.
Qed.

Lemma normalizeSegs_plain acc segs :
  Forall plain acc → Forall slash_free segs →
  Forall plain (Posix.normalizeSegs false acc segs).
Proof.
  revert acc. induction segs as [|s segs IH]; intros acc Ha Hs; simpl.
  - by apply Forall_rev.
  - inversion Hs as [|? ? Hs1 Hs2]; subst.
    destruct (String.eqb_spec s "") as [-> | H1]; simpl; [by apply IH |].
    destruct (String.eqb_spec s ".") as [-> | H2]; simpl; [by apply IH |].
    destruct (String.eqb_spec s "..") as [-> | H3].
    + destruct acc as [|x acc]; [by apply IH |].
      inversion Ha; subst. destruct (String.eqb x ".."); by apply IH.
    + apply IH; [| done]. by constructor.
Qed.

Lemma plain_filter (S : list string) :
  Forall plain S → filter (λ s, s ≠ "" ∧ s ≠ ".") S = S.
Proof.
  induction 1 as [|x S (H1 & H2 & _) _ IH]; [done |].
  by rewrite filter_cons_True, IH.
Qed.

Lemma plain_no_dotdot (S : list string) : Forall plain S → ".." ∉ S.
Proof.
  induction 1 as [|x S (_ & _ & H3 & _) _ IH]; [by apply not_elem_of_nil |].
  by apply not_elem_of_cons.
Qed.

(** Resolving a string made of plain segments gives the segments back. *)
Lemma resolve_plain (S : list string) (trailing : bool) :
  Forall plain S → S ≠ [] →
  Posix.normalizeSegs false []
    (split_slash ("/" +:+ join "/" S +:+ (if trailing then "/" else "")))
  = S.
Proof.
  intros HS Hne.
  assert (Forall slash_free S) as Hsf.
  { eapply Forall_impl; [exact HS |]. by intros x (_ & _ & _ & ?). }
  change (split_slash ("/" +:+ join "/" S +:+ (if trailing then "/" else "")))
    with ("" :: split_slash (join "/" S +:+ (if trailing then "/" else ""))).
  assert (split_slash (join "/" S +:+ (if trailing then "/" else ""))
          = S ++ (if trailing then [""] else [])) as ->.
  { destruct trailing.
    - change "/" with ("/" +:+ "") at 2.
      by rewrite split_slash_app, split_slash_join.
    - by rewrite append_empty_r, app_nil_r, split_slash_join. }
  rewrite normalizeSegs_no_dotdot.
  - simpl. rewrite filter_cons_False by (by intros [? _]).
    rewrite filter_app, plain_filter by done.
    destruct trailing; [| by rewrite app_nil_r].
    rewrite filter_cons_False by (by intros [? _]). by rewrite app_nil_r.
  - apply not_elem_of_cons. split; [done |].
    apply not_elem_of_app. split; [by apply plain_no_dotdot |].
    destruct trailing; [| by apply not_elem_of_nil].
    apply not_elem_of_cons. split; [done | by apply not_elem_of_nil].
Qed.

Lemma isAbsolute_non_empty (s : string) :
  Posix.isAbsolute s = true → non_empty s = true.
Proof. by destruct s. Qed.

Lemma isAbsolute_app (a b : string) :
  Posix.isAbsolute a = true → Posix.isAbsolute (a +:+ b) = true.
Proof.
  unfold Posix.isAbsolute. intros [r ->]%starts_with_slash.
  apply starts_with_slash. by exists (r +:+ b).
Qed.

Lemma join_plain_empty (S : list string) :
  Forall plain S → non_empty (join "/" S) = false → S = [].
Proof.
  destruct 1 as [|x S (Hx & _) HS]; [done |].
  destruct S as [|y S]; [by destruct x |].
  change (join "/" (x :: y :: S)) with (x +:+ "/" +:+ join "/" (y :: S)).
  by destruct x.
Qed.

(** Resolving what [normalize] returns for an absolute path gives the
    segments [normalize] computed. *)
Lemma resolve_normalize (wd s : string) :
  Posix.isAbsolute s = true →
  Posix.resolve_segs wd (Posix.normalize s)
  = Posix.normalizeSegs false [] (split_slash s).
Proof.
  intros Ha. unfold Posix.normalize, Posix.normalizeString.
  rewrite (isAbsolute_non_empty s Ha), Ha. simpl negb.
  assert (Forall plain (Posix.normalizeSegs false [] (split_slash s))) as HS.
  { apply normalizeSegs_plain; [constructor | apply split_slash_pieces]. }
  destruct (non_empty (join "/" _)) eqn:Hb.
  - unfold Posix.resolve_segs.
    rewrite isAbsolute_app by done.
    apply (resolve_plain _ (Posix.ends_with_slash s) HS).
    intros Hnil. by rewrite Hnil in Hb.
  - by rewrite (join_plain_empty _ HS Hb).
Qed.


(** ** The directory of a joined path *)










(** ** Confinement *)


Lemma new_calls_app {A} (m : M A) (w : world) (calls : list fs_call) :
  log (snd (m w)) = log w ++ calls → new_calls m w = calls.
Proof. intros H. unfold new_calls. by rewrite H, drop_app_length. Qed.



(** * Further properties *)

(** ** Disks that only grow *)

Lemma grows_refl (t : Fs.tree) : grows t t.
Proof. intros k [perm d|perm] H; eauto. Qed.

Lemma grows_trans (t1 t2 t3 : Fs.tree) :
  grows t1 t2 → grows t2 t3 → grows t1 t3.
Proof.
  intros H12 H23 k n Hk. specialize (H12 k n Hk).
  destruct n as [perm d|perm].
  - destruct H12 as (perm' & d' & H2). exact (H23 _ _ H2).
  - exact (H23 _ _ H12).
Qed.

Lemma preserved_grows (t t' : Fs.tree) :
  (∀ k n, t !! k = Some n → t' !! k = Some n) → grows t t'.
Proof. intros H k [perm d|perm] Hk; apply H in Hk; eauto. Qed.

Lemma mkdirs_grows (wd : string) (t t' : Fs.tree) (p : string) r :
  Fs.mkdirs wd t p = (r, t') → grows t t'.
Proof.
  intros H. apply preserved_grows. intros k n. by eapply mkdirs_preserves.
Qed.

Lemma writeFile_entry (wd : string) (t t' : Fs.tree) (p : string) data :
  Fs.writeFile wd t p data = Fs.Ok t' →
  (∀ perm, t !! Posix.resolve_segs wd p ≠ Some (Fs.Dir perm)) ∧
  t' = <[Posix.resolve_segs wd p := Fs.File true data]> t.
Proof.
  intros (tg & x & Hl & Hne & _ & Hw & Hx & ->)%writeFile_segs.
  rewrite <- (locate_segs _ _ _ Hl). split; [| done].
  apply walk_lookup in Hw; [| done]. simpl in Hw. by rewrite <- Hw.
Qed.

Lemma writeFile_grows (wd : string) (t t' : Fs.tree) (p : string) data :
  Fs.writeFile wd t p data = Fs.Ok t' → grows t t'.
Proof.
  intros [Hnd ->]%writeFile_entry k n Hk.
  destruct (decide (k = Posix.resolve_segs wd p)) as [-> | Hne].
  - rewrite lookup_insert_eq. destruct n as [perm d|perm]; [eauto |].
    by destruct (Hnd perm).
  - rewrite lookup_insert_ne by done. by destruct n; eauto.
Qed.

Lemma writeFile_same_elsewhere (wd : string) (t t' : Fs.tree) (p : string)
    data :
  Fs.writeFile wd t p data = Fs.Ok t' →
  same_elsewhere (Posix.resolve_segs wd p) t t'.
Proof.
  intros [_ ->]%writeFile_entry k n Hne Hk. by rewrite lookup_insert_ne.
Qed.

(** Name lookup finds on a grown disk what it found before. *)
Lemma walk_grows (t t' : Fs.tree) p q cur rest n :
  grows t t' → rest ≠ [] →
  Fs.walk t p cur rest = Fs.Ok (Some n) →
  Fs.walk t' q cur rest = Fs.Ok (t' !! (cur ++ rest)).
Proof.
  intros Hg. revert cur. induction rest as [|c rest IH]; intros cur Hne;
    [done |].
  simpl. destruct (Fs.too_long c); [done |].
  destruct rest as [|c2 rest]; [done |].
  destruct (t !! (cur ++ [c])) as [[perm d|[|]]|] eqn:Hl; try done.
  rewrite (Hg _ _ Hl). intros Hw. apply IH in Hw; [| done].
  by rewrite <- app_assoc in Hw.
Qed.

Lemma stat_grows (wd : string) (t t' : Fs.tree) (p : string) n :
  grows t t' → Fs.stat wd t p = Fs.Ok n → ∃ n', Fs.stat wd t' p = Fs.Ok n'.
Proof.
  intros Hg. unfold Fs.stat, Fs.lookup_path.
  destruct (Fs.locate wd p) as [tg|e]; [| done].
  destruct (Fs.segs tg) as [|c segs] eqn:Hs; [simpl; eauto |].
  destruct (Fs.walk t p [] (c :: segs)) as [[x|]|e] eqn:Hw; try done.
  pose proof Hw as Hl. apply walk_lookup in Hl; [| done]. simpl in Hl.
  erewrite walk_grows; [| exact Hg | done | exact Hw]. simpl.
  symmetry in Hl. specialize (Hg _ _ Hl).
  destruct x as [perm d|perm].
  - destruct Hg as (perm' & d' & ->).
    destruct (Fs.must_be_dir tg); [done | eauto].
  - rewrite Hg. eauto.
Qed.

Lemma readFile_grows (wd : string) (t t' : Fs.tree) (q : string) b :
  grows t t' →
  t' !! Posix.resolve_segs wd q = t !! Posix.resolve_segs wd q →
  Fs.readFile wd t q = Fs.Ok b → Fs.readFile wd t' q = Fs.Ok b.
Proof.
  intros Hg Heq. unfold Fs.readFile, Fs.lookup_path.
  destruct (Fs.locate wd q) as [tg|e] eqn:Hloc; [| done].
  rewrite <- (locate_segs _ _ _ Hloc) in Heq.
  destruct (Fs.segs tg) as [|c segs] eqn:Hs; [done |].
  destruct (Fs.walk t q [] (c :: segs)) as [[x|]|e] eqn:Hw; try done.
  pose proof Hw as Hl. apply walk_lookup in Hl; [| done]. simpl in Hl.
  erewrite walk_grows; [| exact Hg | done | exact Hw]. simpl.
  by rewrite Heq, <- Hl.
Qed.

Lemma readFile_stat (wd : string) (t : Fs.tree) (p : string) b :
  Fs.readFile wd t p = Fs.Ok b → Fs.stat wd t p = Fs.Ok (Fs.File true b).
Proof.
  unfold Fs.readFile, Fs.stat.
  destruct (Fs.lookup_path wd t p) as [[tg [[perm d|[|]]|]]|e]; try done.
  destruct (Fs.must_be_dir tg); [done |]. destruct perm; [| done].
  by intros [= ->].
Qed.

Lemma stat_dir_readFile (wd : string) (t : Fs.tree) (p : string) perm :
  Fs.stat wd t p = Fs.Ok (Fs.Dir perm) →
  Fs.readFile wd t p
  = Fs.Err (if perm then {| Fs.code := Some "EISDIR"; Fs.errpath := None |}
            else Fs.errno "EACCES" p).
Proof.
  unfold Fs.readFile, Fs.stat.
  destruct (Fs.lookup_path wd t p) as [[tg [[perm' d|perm']|]]|e]; try done.
  - by destruct (Fs.must_be_dir tg).
  - intros [= ->]. by destruct perm.
Qed.

Lemma stat_validate (wd : string) (t : Fs.tree) (p : string) n :
  Fs.stat wd t p = Fs.Ok n → Fs.validate p = None.
Proof.
  unfold Fs.stat, Fs.lookup_path.
  destruct (Fs.locate wd p) as [tg|e] eqn:Hl; [| done].
  intros _. by eapply locate_validate.
Qed.

Lemma stat_dir_grows (wd : string) (t t' : Fs.tree) (p : string) perm :
  grows t t' → Fs.stat wd t p = Fs.Ok (Fs.Dir perm) →
  Fs.stat wd t' p = Fs.Ok (Fs.Dir perm).
Proof.
  intros Hg. unfold Fs.stat, Fs.lookup_path.
  destruct (Fs.locate wd p) as [tg|e]; [| done].
  destruct (Fs.segs tg) as [|c segs] eqn:Hs; [done |].
  destruct (Fs.walk t p [] (c :: segs)) as [[x|]|e] eqn:Hw; try done.
  pose proof Hw as Hl. apply walk_lookup in Hl; [| done]. simpl in Hl.
  erewrite walk_grows; [| exact Hg | done | exact Hw]. simpl.
  symmetry in Hl. specialize (Hg _ _ Hl).
  destruct x as [perm' d|perm'].
  - by destruct (Fs.must_be_dir tg).
  - by rewrite Hg.
Qed.

Lemma stat_dir_writeFile (wd : string) (t : Fs.tree) (p : string) perm data :
  Fs.stat wd t p = Fs.Ok (Fs.Dir perm) →
  Fs.writeFile wd t p data = Fs.Err (Fs.errno "EISDIR" p).
Proof.
  unfold Fs.writeFile, Fs.stat.
  destruct (Fs.lookup_path wd t p) as [[tg [[perm' d|perm']|]]|e]; try done.
  by destruct (Fs.must_be_dir tg).
Qed.

Lemma writeFile_stat (wd : string) (t t' : Fs.tree) (p : string) data :
  Fs.writeFile wd t p data = Fs.Ok t' →
  Fs.stat wd t' p = Fs.Ok (Fs.File true data).
Proof. intros H. by apply readFile_stat, (writeFile_readFile _ _ _ _ _ H). Qed.

(** A recursive mkdir that succeeded succeeds again, and changes nothing,
    on any disk that still has the directories it left. *)
Lemma mkdirp_again (t t1 t2 : Fs.tree) p q cur rest :
  Fs.mkdirp t p cur rest = (None, t1) →
  (∀ k perm, t1 !! k = Some (Fs.Dir perm) → t2 !! k = Some (Fs.Dir perm)) →
  Fs.mkdirp t2 q cur rest = (None, t2).
Proof.
  revert t cur. induction rest as [|c rest IH]; intros t cur; simpl; [done |].
  destruct (Fs.too_long c); [done |].
  destruct (t !! (cur ++ [c])) as [[perm d|[|]]|] eqn:Hl.
  - by destruct rest.
  - intros Hm H2.
    rewrite (H2 _ _ (mkdirp_preserves _ _ _ _ _ _ _ _ Hm Hl)). eauto.
  - destruct rest; [| done]. intros [= <-] H2. by rewrite (H2 _ _ Hl).
  - intros Hm H2.
    assert (t1 !! (cur ++ [c]) = Some (Fs.Dir true)) as H1.
    { eapply mkdirp_preserves; [exact Hm |]. by rewrite lookup_insert_eq. }
    rewrite (H2 _ _ H1). eauto.
Qed.

Lemma mkdirs_again (wd : string) (t t1 t2 : Fs.tree) (p : string) :
  Fs.mkdirs wd t p = (None, t1) →
  (∀ k perm, t1 !! k = Some (Fs.Dir perm) → t2 !! k = Some (Fs.Dir perm)) →
  Fs.mkdirs wd t2 p = (None, t2).
Proof.
  unfold Fs.mkdirs. destruct (Fs.locate wd p); [| done]. apply mkdirp_again.
Qed.

(** ** saveRaw, whatever its outcome *)

Section SaveRaw.
Context {path : PathModule}.
Variable config : Config.

(** The three ways [saveRaw] can go. *)
Lemma saveRaw_outcome buffer P w :
  let target := path_join [storagePath config; P] in
  let dir := path_dirname target in
  (∃ e t1, Fs.mkdirs (cwd w) (files w) dir = (Some e, t1) ∧
     saveRaw config buffer P w
     = (Rejected (Thrown e), called (Mkdirs dir) t1 w)) ∨
  (∃ e t1, Fs.mkdirs (cwd w) (files w) dir = (None, t1) ∧
     Fs.writeFile (cwd w) t1 target buffer = Fs.Err e ∧
     saveRaw config buffer P w
     = (Rejected (Thrown e),
        called (WriteFile target) t1 (called (Mkdirs dir) t1 w))) ∨
  (∃ t1 t2, Fs.mkdirs (cwd w) (files w) dir = (None, t1) ∧
     Fs.writeFile (cwd w) t1 target buffer = Fs.Ok t2 ∧
     saveRaw config buffer P w
     = (Resolved (fullUrl config P),
        called (WriteFile target) t2 (called (Mkdirs dir) t1 w))).
Proof.
  intros target dir.
  unfold saveRaw, await, bind, fs_mkdirs, fs_writeFile, ret. fold target dir.
  destruct (Fs.mkdirs _ _ dir) as [[e|] t1] eqn:Hm; simpl.
  - left. eauto.
  - destruct (Fs.writeFile _ _ target buffer) as [t2|e] eqn:Hw.
    + right. right. eauto 6.
    + right. left. eauto 6.
Qed.

Lemma saveRaw_cwd buffer P w : cwd (snd (saveRaw config buffer P w)) = cwd w.
Proof.
  destruct (saveRaw_outcome buffer P w)
    as [(e & t1 & _ & ->) | [(e & t1 & _ & _ & ->) | (t1 & t2 & _ & _ & ->)]];
    done.
Qed.

Lemma saveRaw_grows buffer P w :
  grows (files w) (files (snd (saveRaw config buffer P w))) ∧
  same_elsewhere
    (Posix.resolve_segs (cwd w) (path_join [storagePath config; P]))
    (files w) (files (snd (saveRaw config buffer P w))).
Proof.
  destruct (saveRaw_outcome buffer P w)
    as [(e & t1 & Hm & ->) | [(e & t1 & Hm & _ & ->) | (t1 & t2 & Hm & Hw & ->)]];
    simpl.
  - split; [by eapply mkdirs_grows |]. intros k n _. by eapply mkdirs_preserves.
  - split; [by eapply mkdirs_grows |]. intros k n _. by eapply mkdirs_preserves.
  - split.
    + eapply grows_trans; [by eapply mkdirs_grows | by eapply writeFile_grows].
    + intros k n Hne Hk. eapply writeFile_same_elsewhere; [exact Hw | done |].
      by eapply mkdirs_preserves.
Qed.

End SaveRaw.

Lemma exists_result {path : PathModule} config fileName targetDir w :
  fst (exists_ config fileName targetDir w)
  = Resolved
      (match Fs.stat (cwd w) (files w)
               (path_join [or_else targetDir (storagePath config); fileName])
       with
       | Fs.Ok _ => true
       | Fs.Err _ => false
       end).
Proof.
  unfold exists_, bind, fs_stat, ret. simpl. by destruct (Fs.stat _ _ _).
Qed.

(** X1: after a successful [saveRaw] to a path, [exists] of that path under
    the storage root resolves to [true]. *)
Theorem saveRaw_then_exists {path : PathModule} config buffer P w url w1 :
  saveRaw config buffer P w = (Resolved url, w1) →
  fst (exists_ config P None w1) = Resolved true.
Proof.
  intros H. apply saveRaw_resolved in H as (_ & t1 & t2 & _ & Hw & ->).
  rewrite exists_result. simpl. by rewrite (writeFile_stat _ _ _ _ _ Hw).
Qed.

Lemma saveRaw_then_exists_witness :
  fst (Ghost.exists_ "2024/03/photo.gif" None
         (snd (Ghost.saveRaw Ghost.sample "2024/03/photo.gif" Ghost.world)))
  = Resolved true.
Proof.
  apply (@saveRaw_then_exists Ghost.path Ghost.config Ghost.sample
           "2024/03/photo.gif" Ghost.world
           "/content/images/2024/03/photo.gif").
  vm_compute. reflexivity.
Defined.

(** X2: [saveRaw] overwrites: after a successful [saveRaw] to a path, a
    second [saveRaw] to the same path succeeds too, returns the same URL,
    and leaves the new bytes in the file. *)
Theorem saveRaw_again {path : PathModule} config first second P w url w1 :
  saveRaw config first P w = (Resolved url, w1) →
  ∃ w2, saveRaw config second P w1 = (Resolved url, w2) ∧
        Fs.readFile (cwd w2) (files w2)
          (path_join [storagePath config; P]) = Fs.Ok second.
Proof.
  intros H. apply saveRaw_resolved in H as (-> & t1 & t2 & Hm & Hw & ->).
  pose proof (writeFile_entry _ _ _ _ _ Hw) as [Hnd Ht2].
  assert (Fs.mkdirs (cwd w) t2
            (path_dirname (path_join [storagePath config; P])) = (None, t2))
    as Hm2.
  { eapply mkdirs_again; [exact Hm |]. intros k perm Hk. rewrite Ht2.
    rewrite lookup_insert_ne; [done |]. intros <-. by destruct (Hnd perm). }
  assert (∃ t3, Fs.writeFile (cwd w) t2 (path_join [storagePath config; P])
                  second = Fs.Ok t3) as [t3 Hw3].
  { pose proof (writeFile_stat _ _ _ _ _ Hw) as Hst.
    unfold Fs.stat in Hst. unfold Fs.writeFile.
    destruct (Fs.lookup_path _ t2 _) as [[tg [[perm d|perm]|]]|e]; try done.
    destruct (Fs.must_be_dir tg); [done |]. injection Hst as -> _. eauto. }
  eexists. split.
  - unfold saveRaw, await, bind, fs_mkdirs, fs_writeFile, ret. simpl.
    rewrite Hm2. simpl. rewrite Hw3. reflexivity.
  - simpl. by apply writeFile_readFile in Hw3.
Qed.

Lemma saveRaw_again_witness :
  ∃ w2, Ghost.saveRaw [Byte.x00] "a.gif"
          (snd (Ghost.saveRaw Ghost.sample "a.gif" Ghost.world))
        = (Resolved "/content/images/a.gif", w2).
Proof.
  destruct (@saveRaw_again Ghost.path Ghost.config Ghost.sample [Byte.x00]
              "a.gif" Ghost.world "/content/images/a.gif"
              (snd (Ghost.saveRaw Ghost.sample "a.gif" Ghost.world)))
    as (w2 & H & _).
  - vm_compute. reflexivity.
  - by exists w2.
Defined.

(** X3: [saveRaw] does not reclassify errors: when it is rejected, it is with
    the very error of [fs.mkdirs], in which case nothing was written, or
    with the error of [fs.writeFile]. *)
Theorem saveRaw_passes_errors_on {path : PathModule} config buffer P w r w' :
  let target := path_join [storagePath config; P] in
  let dir := path_dirname target in
  saveRaw config buffer P w = (Rejected r, w') →
  ∃ e, r = Thrown e ∧
    ((fst (Fs.mkdirs (cwd w) (files w) dir) = Some e ∧
      new_calls (saveRaw config buffer P) w = [Mkdirs dir]) ∨
     (∃ t1, Fs.mkdirs (cwd w) (files w) dir = (None, t1) ∧
            Fs.writeFile (cwd w) t1 target buffer = Fs.Err e ∧
            files w' = t1)).
Proof.
  intros target dir H.
  destruct (saveRaw_outcome config buffer P w)
    as [(e & t1 & Hm & Hs) | [(e & t1 & Hm & Hw & Hs) | (t1 & t2 & Hm & _ & Hs)]];
    fold target dir in Hm, Hs; rewrite Hs in H; [| | done].
  - injection H as <- <-. exists e. split; [done |]. left. rewrite Hm.
    split; [done |]. apply new_calls_app. by rewrite Hs.
  - injection H as <- <-. exists e. split; [done |]. right. by exists t1.
Qed.

Lemma saveRaw_passes_errors_on_witness :
  ∃ e, fst (Ghost.saveRaw Ghost.sample "dir/" Ghost.world)
       = Rejected (Thrown e).
Proof.
  destruct (@saveRaw_passes_errors_on Ghost.path Ghost.config Ghost.sample
              "dir/" Ghost.world
              (Thrown (Fs.errno "EISDIR" "/var/lib/ghost/content/images/dir/"))
              (snd (Ghost.saveRaw Ghost.sample "dir/" Ghost.world)))
    as (e & He & _).
  - vm_compute. reflexivity.
  - exists e. rewrite <- He. vm_compute. reflexivity.
Defined.

(** X4: [saveRaw] touches no other file: whatever its outcome, a file that
    could be read before at a path other than the target reads the same
    bytes afterwards. *)
Theorem saveRaw_keeps_other_files {path : PathModule} config buffer P w q b :
  let w' := snd (saveRaw config buffer P w) in
  Fs.readFile (cwd w) (files w) q = Fs.Ok b →
  Posix.resolve_segs (cwd w) q
  ≠ Posix.resolve_segs (cwd w) (path_join [storagePath config; P]) →
  Fs.readFile (cwd w') (files w') q = Fs.Ok b.
Proof.
  intros w' Hr Hne. unfold w'. rewrite saveRaw_cwd.
  destruct (saveRaw_grows config buffer P w) as [Hg Hs].
  apply (readFile_grows _ _ _ _ _ Hg); [| done].
  apply readFile_stat, stat_file in Hr. rewrite Hr. by apply Hs.
Qed.

Lemma saveRaw_keeps_other_files_witness :
  let w := snd (Ghost.saveRaw Ghost.sample "a.gif" Ghost.world) in
  Fs.readFile (cwd w) (files (snd (Ghost.saveRaw [Byte.x00] "b.gif" w)))
    "/var/lib/ghost/content/images/a.gif" = Fs.Ok Ghost.sample.
Proof.
  apply (@saveRaw_keeps_other_files Ghost.path Ghost.config [Byte.x00] "b.gif"
           (snd (Ghost.saveRaw Ghost.sample "a.gif" Ghost.world))
           "/var/lib/ghost/content/images/a.gif" Ghost.sample).
  - vm_compute. reflexivity.
  - vm_compute. discriminate.
Defined.

(** X5: [saveRaw] never frees a name: when [exists] resolved to [true] for a
    name before a [saveRaw], whatever its path and outcome, it does so
    after. *)
Theorem saveRaw_never_frees_a_name {path : PathModule} config buffer P w
    fileName targetDir :
  fst (exists_ config fileName targetDir w) = Resolved true →
  fst (exists_ config fileName targetDir (snd (saveRaw config buffer P w)))
  = Resolved true.
Proof.
  rewrite !exists_result, saveRaw_cwd.
  destruct (Fs.stat (cwd w) (files w) _) as [n|e] eqn:Hst; [| done].
  intros _. destruct (saveRaw_grows config buffer P w) as [Hg _].
  by destruct (stat_grows _ _ _ _ _ Hg Hst) as [n' ->].
Qed.

Lemma saveRaw_never_frees_a_name_witness :
  let w := snd (Ghost.saveRaw Ghost.sample "a.gif" Ghost.world) in
  fst (Ghost.exists_ "a.gif" None (snd (Ghost.saveRaw [Byte.x00] "a.gif/b" w)))
  = Resolved true.
Proof.
  apply (@saveRaw_never_frees_a_name Ghost.path Ghost.config [Byte.x00]
           "a.gif/b" (snd (Ghost.saveRaw Ghost.sample "a.gif" Ghost.world))
           "a.gif" None).
  vm_compute. reflexivity.
Defined.

(** X6: [saveRaw] never replaces a directory: when the target path is a
    directory, the call is rejected and the directory is still there. *)
Theorem saveRaw_onto_directory {path : PathModule} config buffer P w perm :
  let target := path_join [storagePath config; P] in
  let w' := snd (saveRaw config buffer P w) in
  Fs.stat (cwd w) (files w) target = Fs.Ok (Fs.Dir perm) →
  (∃ e, fst (saveRaw config buffer P w) = Rejected (Thrown e)) ∧
  Fs.stat (cwd w') (files w') target = Fs.Ok (Fs.Dir perm).
Proof.
  intros target w' Hst. unfold w'.
  destruct (saveRaw_grows config buffer P w) as [Hg _].
  split; [| rewrite saveRaw_cwd; by apply (stat_dir_grows _ _ _ _ _ Hg)].
  destruct (saveRaw_outcome config buffer P w)
    as [(e & t1 & Hm & ->) | [(e & t1 & Hm & Hw & ->) | (t1 & t2 & Hm & Hw & _)]];
    eauto.
  fold target in Hw.
  pose proof (stat_dir_grows _ _ _ _ _ (mkdirs_grows _ _ _ _ _ Hm) Hst) as H1.
  by rewrite (stat_dir_writeFile _ _ _ _ buffer H1) in Hw.
Qed.

Lemma saveRaw_onto_directory_witness :
  ∃ e, fst (Ghost.saveRaw Ghost.sample "" Ghost.world) = Rejected (Thrown e).
Proof.
  refine (proj1 (@saveRaw_onto_directory Ghost.path Ghost.config Ghost.sample
                   "" Ghost.world true _)).
  vm_compute. reflexivity.
Defined.

(** X7: on a POSIX host a target path that ends in a slash is never written:
    [saveRaw] is rejected. *)
Theorem saveRaw_trailing_slash (wd : string) config buffer P w :
  Posix.ends_with_slash P = true →
  ∃ e, fst (@saveRaw (Posix.posix wd) config buffer P w) = Rejected (Thrown e).
Proof.
  intros HP.
  destruct (@saveRaw_outcome (Posix.posix wd) config buffer P w)
    as [(e & t1 & Hm & ->) | [(e & t1 & Hm & Hw & ->) | (t1 & t2 & Hm & Hw & _)]];
    eauto.
  apply writeFile_no_trailing_slash in Hw. simpl in Hw.
  by rewrite (join_paths_keeps_trailing_slash _ _ HP) in Hw.
Qed.

Lemma saveRaw_trailing_slash_witness :
  ∃ e, fst (Ghost.saveRaw Ghost.sample "2024/03/" Ghost.world)
       = Rejected (Thrown e).
Proof.
  apply (saveRaw_trailing_slash "/var/lib/ghost" Ghost.config Ghost.sample
           "2024/03/" Ghost.world).
  vm_compute. reflexivity.
Defined.

(** ** read, whatever its outcome *)

(** X8: [read] leaves the disk as it is.  It resolves exactly when
    [fs.readFile] takes the joined path and delivers bytes, and with those
    bytes.  When [fs.readFile] takes the path and reports an error, the
    rejection is the typed error chosen by the error's code, never the raw
    error; when [fs.readFile] refuses the path and throws, the rejection is
    what was thrown. *)
Theorem read_settles_typed {path : PathModule} config options w :
  let rel := relative_path options w in
  let target := path_join [storagePath config; rel] in
  files (snd (read config options w)) = files w ∧
  (∀ b, fst (read config options w) = Resolved b ↔
        Fs.validate target = None ∧
        Fs.readFile (cwd w) (files w) target = Fs.Ok b) ∧
  (∀ r, Fs.validate target = None →
        fst (read config options w) = Rejected r →
        ∃ e g, Fs.readFile (cwd w) (files w) target = Fs.Err e ∧
               r = Typed g ∧ read_spec rel e g) ∧
  (∀ e, Fs.validate target = Some e →
        fst (read config options w) = Rejected (Thrown e)).
Proof.
  intros rel target. rewrite read_run. fold rel target. simpl.
  unfold read_settles. split; [done |].
  destruct (Fs.validate target) as [e0|].
  { split; [| split].
    - intros b. split; [done | by intros (? & _)].
    - done.
    - by intros e [= ->]. }
  destruct (Fs.readFile (cwd w) (files w) target) as [b'|e].
  - split; [| split]; [| done | done].
    intros b. split; [by intros [= ->] | by intros (_ & [= ->])].
  - destruct (read_callback_spec rel e) as (g & Hg & Hspec). rewrite Hg.
    split; [| split]; [| | done].
    + intros b. split; [done | by intros (_ & ?)].
    + intros r _ [= <-]. eauto.
Qed.

(** X9: what [read] can read, [exists] reports: when [read] resolves,
    [exists] of the same relative path under the storage root resolves to
    [true]. *)
Theorem read_implies_exists {path : PathModule} config options w b :
  fst (read config options w) = Resolved b →
  fst (exists_ config (relative_path options w) None w) = Resolved true.
Proof.
  rewrite read_run, exists_result. simpl. unfold read_settles.
  destruct (Fs.validate _); [done |].
  destruct (Fs.readFile _ _ _) as [b'|e] eqn:Hr.
  - intros _. by rewrite (readFile_stat _ _ _ _ Hr).
  - by destruct (read_callback_spec (relative_path options w) e)
      as (g & -> & _).
Qed.

Lemma read_implies_exists_witness :
  let w := with_options 1%positive "a.gif/"
             (snd (Ghost.saveRaw Ghost.sample "a.gif" Ghost.world)) in
  fst (Ghost.exists_ "a.gif" None w) = Resolved true.
Proof.
  apply (@read_implies_exists Ghost.path Ghost.config (Some 1%positive)
           (with_options 1%positive "a.gif/"
              (snd (Ghost.saveRaw Ghost.sample "a.gif" Ghost.world)))
           Ghost.sample).
  vm_compute. reflexivity.
Defined.


(** X11: reading a directory, such as the storage root itself when [read]
    gets no path, is not reported as a missing image.  For a directory the
    process may open, the rejection is the generic error, wrapping the
    EISDIR of the failed read, with the message 'Could not read image: '
    and the relative path; for one it may not open, the rejection is the
    NoPermissionError wrapping the EACCES. *)
Theorem read_directory {path : PathModule} config options w perm :
  let rel := relative_path options w in
  let target := path_join [storagePath config; rel] in
  Fs.stat (cwd w) (files w) target = Fs.Ok (Fs.Dir perm) →
  fst (read config options w)
  = Rejected (Typed
      (if perm then
         GhostError
           {| err := Some (FsCause {| Fs.code := Some "EISDIR";
                                      Fs.errpath := None |});
              message := Some ("Could not read image: " +:+ rel);
              code := None; property := None |}
       else
         NoPermissionError
           {| err := Some (FsCause (Fs.errno "EACCES" target));
              message := None; code := None; property := None |})).
Proof.
  intros rel target Hst. rewrite read_run. fold rel target. simpl.
  unfold read_settles. rewrite (stat_validate _ _ _ _ Hst).
  rewrite (stat_dir_readFile _ _ _ _ Hst). unfold read_callback, code_is.
  destruct perm; simpl; repeat case_bool_decide; try done. simpl.
  by rewrite tpl_cannotReadImage.
Qed.

Lemma read_directory_witness :
  (∃ o, fst (Ghost.read None Ghost.world) = Rejected (Typed (GhostError o)) ∧
        message o = Some "Could not read image: ") ∧
  (∃ o, fst (Ghost.read (Some 1%positive)
               (with_options 1%positive "private"
                  (Ghost.boot Ghost.diskWithPrivate)))
        = Rejected (Typed (NoPermissionError o))).
Proof.
  split; eexists.
  - split.
    + apply (@read_directory Ghost.path Ghost.config None Ghost.world true).
      vm_compute. reflexivity.
    + vm_compute. reflexivity.
  - apply (@read_directory Ghost.path Ghost.config (Some 1%positive)
             (with_options 1%positive "private"
                (Ghost.boot Ghost.diskWithPrivate)) false).
    vm_compute. reflexivity.
Defined.

(** ** save, whatever its outcome *)

Lemma copy_frame (wd : string) (t t' : Fs.tree) (src dest : string) r :
  Fs.copy wd t src dest = (r, t') →
  grows t t' ∧ same_elsewhere (Posix.resolve_segs wd dest) t t'.
Proof.
  assert (grows t t ∧ same_elsewhere (Posix.resolve_segs wd dest) t t)
    as Hrefl by (split; [apply grows_refl | by intros k n _]).
  unfold Fs.copy.
  destruct (Fs.stat wd t src) as [[perm data|perm]|e];
    [| by intros [= _ <-] | by intros [= _ <-]].
  destruct (Fs.locate wd dest) as [tg|e]; [| by intros [= _ <-]].
  case_decide; [by intros [= _ <-] |].
  assert (match Fs.mkdirs wd t (Posix.dirname dest) with
          | (Some e, t1) => (Some e, t1)
          | (None, t1) =>
              if perm then
                match Fs.writeFile wd t1 dest data with
                | Fs.Ok t2 => (None, t2)
                | Fs.Err e => (Some e, t1)
                end
              else (Some (Fs.errno "EACCES" src), t1)
          end = (r, t') →
          grows t t' ∧ same_elsewhere (Posix.resolve_segs wd dest) t t')
    as Hrest.
  { destruct (Fs.mkdirs wd t (Posix.dirname dest)) as [[e|] t1] eqn:Hm.
    - intros [= _ <-]. split; [by eapply mkdirs_grows |].
      intros k n _. by eapply mkdirs_preserves.
    - assert (grows t t1 ∧ same_elsewhere (Posix.resolve_segs wd dest) t t1)
        as H1.
      { split; [by eapply mkdirs_grows |].
        intros k n _. by eapply mkdirs_preserves. }
      destruct perm; [| by intros [= _ <-]].
      destruct (Fs.writeFile wd t1 dest data) as [t2|e] eqn:Hw;
        [| by intros [= _ <-]].
      intros [= _ <-]. split.
      + eapply grows_trans; [apply H1 | by eapply writeFile_grows].
      + intros k n Hne Hk.
        eapply writeFile_same_elsewhere; [exact Hw | done |].
        by eapply mkdirs_preserves. }
  destruct (Fs.stat wd t dest) as [[? ?|?]|?]; try exact Hrest.
  by intros [= _ <-].
Qed.

Section Save.
Context {path : PathModule} {base : StorageBase}.
Variable config : Config.

(** The four ways [save] can go, after the unique-name helper. *)
Lemma save_outcome image targetDir w :
  let dir := or_else targetDir (getTargetDir (storagePath config)) in
  let named := getUniqueFileName (exists_ config) image dir w in
  match fst named with
  | Rejected r => save config image targetDir w = (Rejected r, snd named)
  | Resolved filename =>
      ∃ r1 t1 r2 t2,
        Fs.mkdirs (cwd (snd named)) (files (snd named)) dir = (r1, t1) ∧
        Fs.copy (cwd (snd named)) t1 (image_path image) filename = (r2, t2) ∧
        cwd (snd (save config image targetDir w)) = cwd (snd named) ∧
        match r1, r2 with
        | Some e, _ =>
            fst (save config image targetDir w) = Rejected (Thrown e) ∧
            files (snd (save config image targetDir w)) = t1
        | None, Some e =>
            fst (save config image targetDir w) = Rejected (Thrown e) ∧
            files (snd (save config image targetDir w)) = t2
        | None, None =>
            fst (save config image targetDir w)
            = Resolved (fullUrl config
                          (path_relative (storagePath config) filename)) ∧
            files (snd (save config image targetDir w)) = t2
        end
  end.
Proof.
  intros dir named. unfold named, save, await, bind, fs_mkdirs, fs_copy, ret.
  fold dir.
  destruct (getUniqueFileName _ _ _ _) as [[filename|r] w0]; simpl; [| done].
  destruct (Fs.mkdirs _ _ dir) as [r1 t1] eqn:Hm.
  destruct (Fs.copy (cwd w0) t1 (image_path image) filename) as [r2 t2] eqn:Hc.
  exists r1, t1, r2, t2. destruct r1 as [e|]; simpl.
  - done.
  - rewrite Hc. by destruct r2.
Qed.

Lemma save_grows image targetDir w filename :
  let dir := or_else targetDir (getTargetDir (storagePath config)) in
  let w' := snd (save config image targetDir w) in
  read_only (getUniqueFileName (exists_ config) image dir) →
  cwd w' = cwd w ∧
  grows (files w) (files w') ∧
  (fst (getUniqueFileName (exists_ config) image dir w) = Resolved filename →
   same_elsewhere (Posix.resolve_segs (cwd w) filename) (files w) (files w')).
Proof.
  intros dir w' Hro. unfold w'. destruct (Hro w) as [Hf Hc].
  pose proof (save_outcome image targetDir w) as H. fold dir in H. simpl in H.
  destruct (getUniqueFileName _ _ _ _) as [[name|r] w0]; simpl in *.
  - destruct H as (r1 & t1 & r2 & t2 & Hm & Hcp & -> & H).
    rewrite Hf, Hc in *. split; [done |].
    pose proof (mkdirs_grows _ _ _ _ _ Hm) as Hg1.
    destruct (copy_frame _ _ _ _ _ _ Hcp) as [Hg2 Hs2].
    assert (files (save config image targetDir w).2
            = match r1 with Some _ => t1 | None => t2 end) as ->.
    { destruct r1; [by destruct H |]. destruct r2; by destruct H. }
    destruct r1 as [e|].
    + split; [done |]. intros _ k n _. by eapply mkdirs_preserves.
    + split; [by eapply grows_trans |]. intros [= ->] k n Hne Hk.
      apply Hs2; [done |]. by eapply mkdirs_preserves.
  - rewrite H. simpl. rewrite Hf, Hc.
    split; [done |]. split; [apply grows_refl | done].
Qed.

End Save.

(** X12: [save] does not reclassify errors either: a rejection of the
    unique-name helper is passed on as it is; otherwise a rejected [save]
    carries the very error that [fs.mkdirs] reported for the target
    directory, or, the directory made, the very error that [fs.copy]
    reported for the copy from the source to the unique name. *)
Theorem save_passes_errors_on
    {path : PathModule} {base : StorageBase} config image targetDir w r w' :
  let dir := or_else targetDir (getTargetDir (storagePath config)) in
  let named := getUniqueFileName (exists_ config) image dir w in
  save config image targetDir w = (Rejected r, w') →
  fst named = Rejected r ∨
  ∃ filename e,
    fst named = Resolved filename ∧
    r = Thrown e ∧
    (fst (Fs.mkdirs (cwd (snd named)) (files (snd named)) dir) = Some e ∨
     ∃ t1,
       Fs.mkdirs (cwd (snd named)) (files (snd named)) dir = (None, t1) ∧
       fst (Fs.copy (cwd (snd named)) t1 (image_path image) filename)
       = Some e).
Proof.
  intros dir named Hs.
  pose proof (save_outcome config image targetDir w) as H.
  fold dir in H. simpl in H. rewrite Hs in H. simpl in H.
  fold named in H.
  destruct (fst named) as [filename|r0].
  - right. destruct H as (r1 & t1 & r2 & t2 & Hm & Hc & _ & H).
    exists filename.
    destruct r1 as [e|]; [| destruct r2 as [e|]]; destruct H as [H _];
      [| | done]; injection H as ->; exists e.
    + split; [done |]. split; [done |]. left. by rewrite Hm.
    + split; [done |]. split; [done |]. right. exists t1.
      split; [done |]. by rewrite Hc.
  - left. by injection H as ->.
Qed.

Lemma save_passes_errors_on_witness :
  ∃ e t1 filename,
    fst (Ghost.save Ghost.upload None Ghost.world) = Rejected (Thrown e) ∧
    fst (Fs.copy "/var/lib/ghost" t1 "/tmp/upload_3f2a" filename) = Some e.
Proof.
  destruct (@save_passes_errors_on Ghost.path Ghost.base Ghost.config
              Ghost.upload None Ghost.world
              (Thrown (Fs.errno "ENOENT" "/tmp/upload_3f2a"))
              (snd (Ghost.save Ghost.upload None Ghost.world)))
    as [H | (filename & e & Hn & He & [Hm | (t1 & Hm & Hc)])].
  - vm_compute. reflexivity.
  - vm_compute in H. discriminate H.
  - vm_compute in Hm. discriminate Hm.
  - exists e, t1, filename. injection He as <-.
    split; [vm_compute; reflexivity | exact Hc].
Defined.

(** X13: [save] touches no file but its destination: with a unique-name
    helper that only probes, a file that could be read before at a path
    other than the destination reads the same bytes afterwards, whatever
    the outcome of [save]. *)
Theorem save_keeps_other_files
    {path : PathModule} {base : StorageBase} config image targetDir w q b :
  let dir := or_else targetDir (getTargetDir (storagePath config)) in
  let w' := snd (save config image targetDir w) in
  read_only (getUniqueFileName (exists_ config) image dir) →
  Fs.readFile (cwd w) (files w) q = Fs.Ok b →
  (∀ filename,
     fst (getUniqueFileName (exists_ config) image dir w) = Resolved filename →
     Posix.resolve_segs (cwd w) q ≠ Posix.resolve_segs (cwd w) filename) →
  Fs.readFile (cwd w') (files w') q = Fs.Ok b.
Proof.
  intros dir w' Hro Hr Hne. unfold w'.
  pose proof Hr as He. apply readFile_stat, stat_file in He.
  destruct (fst (getUniqueFileName (exists_ config) image dir w))
    as [filename|r] eqn:Hn.
  - destruct (save_grows config image targetDir w filename Hro)
      as (-> & Hg & Hs).
    apply (readFile_grows _ _ _ _ _ Hg); [| done].
    rewrite He. apply (Hs Hn); [by apply Hne | done].
  - pose proof (save_outcome config image targetDir w) as H.
    fold dir in H. simpl in H. rewrite Hn in H. rewrite H. simpl.
    destruct (Hro w) as [-> ->]. done.
Qed.

Lemma save_keeps_other_files_witness :
  Fs.readFile "/var/lib/ghost"
    (files (snd (Ghost.save Ghost.upload None Ghost.uploadWorld)))
    "/tmp/upload_3f2a" = Fs.Ok Ghost.sample.
Proof.
  apply (@save_keeps_other_files Ghost.path Ghost.base Ghost.config
           Ghost.upload None Ghost.uploadWorld "/tmp/upload_3f2a"
           Ghost.sample).
  - apply getUniqueFileName_read_only. intros f d. apply exists_read_only.
  - vm_compute. reflexivity.
  - intros filename H. vm_compute in H. injection H as <-.
    vm_compute. discriminate.
Defined.

(** X14: [save] never frees a name: with a unique-name helper that only
    probes, a name for which [exists] resolved to [true] before a [save] is
    still taken after it, whatever its outcome. *)
Theorem save_never_frees_a_name
    {path : PathModule} {base : StorageBase} config image targetDir w
    fileName dir' :
  let dir := or_else targetDir (getTargetDir (storagePath config)) in
  read_only (getUniqueFileName (exists_ config) image dir) →
  fst (exists_ config fileName dir' w) = Resolved true →
  fst (exists_ config fileName dir' (snd (save config image targetDir w)))
  = Resolved true.
Proof.
  intros dir Hro. rewrite !exists_result.
  destruct (save_grows config image targetDir w "" Hro) as (-> & Hg & _).
  destruct (Fs.stat (cwd w) (files w) _) as [n|e] eqn:Hst; [| done].
  intros _. by destruct (stat_grows _ _ _ _ _ Hg Hst) as [n' ->].
Qed.

Lemma save_never_frees_a_name_witness :
  let w := snd (Ghost.save Ghost.upload None Ghost.uploadWorld) in
  fst (Ghost.exists_ "my-photo.gif" (Some "/var/lib/ghost/content/images/2024/03")
         (snd (Ghost.save Ghost.upload None w)))
  = Resolved true.
Proof.
  apply (@save_never_frees_a_name Ghost.path Ghost.base Ghost.config
           Ghost.upload None
           (snd (Ghost.save Ghost.upload None Ghost.uploadWorld))
           "my-photo.gif" (Some "/var/lib/ghost/content/images/2024/03")).
  - apply getUniqueFileName_read_only. intros f d. apply exists_read_only.
  - vm_compute. reflexivity.
Defined.

(** ** URLs on a POSIX host *)

Lemma replace_sep_slash (s : string) : replace_sep slash s = s.
Proof.
  induction s as [|c s IH]; [done |]. simpl. rewrite IH.
  by destruct (Ascii.eqb_spec c slash) as [-> |].
Qed.

(** X15: where the path separator is the forward slash, the separator
    rewrite changes nothing: the URL is [urlJoin]'s result, character for
    character, so a backslash in the relative path stays in the URL. *)
Theorem fullUrl_posix {path : PathModule} config relativePath :
  sep = slash →
  fullUrl config relativePath
  = UrlUtils.urlJoin
      ["/"; getSubdir config; STATIC_IMAGE_URL_PREFIX config; relativePath].
Proof. intros H. unfold fullUrl. rewrite H. apply replace_sep_slash. Qed.

Lemma fullUrl_posix_witness :
  Ghost.fullUrl "2024\photo.gif" = "/content/images/2024\photo.gif".
Proof.
  etransitivity.
  - apply (@fullUrl_posix Ghost.path Ghost.config "2024\photo.gif").
    reflexivity.
  - reflexivity.
Defined.

(** ** From [save] back to [read] *)

Lemma normalizeSegs_pop (A B X : list string) :
  Forall plain A →
  Posix.normalizeSegs false (A ++ B) (map (λ _, "..") A ++ X)
  = Posix.normalizeSegs false B X.
Proof.
  induction 1 as [|a A (_ & _ & Ha & _) _ IH]; [done |]. simpl.
  destruct (String.eqb_spec a "..") as [-> | _]; [done |]. exact IH.
Qed.

Lemma drop_common_spec (f t f' t' : list string) :
  Posix.drop_common f t = (f', t') →
  ∃ c, f = c ++ f' ∧ t = c ++ t'.
Proof.
  revert t. induction f as [|a f IH]; intros t; simpl.
  - intros [= <- <-]. by exists [].
  - destruct t as [|b t]; [intros [= <- <-]; by exists [] |].
    destruct (String.eqb_spec a b) as [-> | _].
    + intros (c & -> & ->)%IH. by exists (b :: c).
    + intros [= <- <-]. by exists [].
Qed.

Lemma plain_app (A B : list string) :
  Forall plain (A ++ B) → Forall plain A ∧ Forall plain B.
Proof. apply Forall_app. Qed.

Lemma resolve_segs_plain (wd p : string) :
  Forall plain (Posix.resolve_segs wd p).
Proof.
  apply normalizeSegs_plain; [constructor | apply split_slash_pieces].
Qed.

Lemma dots_slash_free (A : list string) :
  Forall slash_free (map (λ _, "..") A).
Proof. induction A; by constructor. Qed.

Lemma join_paths_two (root rel : string) :
  non_empty root = true → non_empty rel = true →
  Posix.join_paths [root; rel] = Posix.normalize (root +:+ "/" +:+ rel).
Proof. by destruct root, rel. Qed.

(** Joining [relative(root, f)] back onto an absolute [root] resolves to
    where [f] resolves to. *)
Lemma join_relative (wd root f : string) :
  Posix.isAbsolute root = true →
  non_empty (Posix.relative wd root f) = true →
  Posix.resolve_segs wd (Posix.join_paths [root; Posix.relative wd root f])
  = Posix.resolve_segs wd f.
Proof.
  intros Ha Hne. unfold Posix.relative in *.
  destruct (String.eqb root f); [done |].
  destruct (Posix.drop_common _ _) as [R' T'] eqn:Hd.
  apply drop_common_spec in Hd as (C & HR & HT).
  pose proof (resolve_segs_plain wd root) as HpR.
  pose proof (resolve_segs_plain wd f) as HpT.
  rewrite HR in HpR. rewrite HT in HpT.
  apply plain_app in HpR as [HpC HpR']. apply plain_app in HpT as [_ HpT'].
  rewrite join_paths_two; [| by apply isAbsolute_non_empty | exact Hne].
  rewrite resolve_normalize by (by apply isAbsolute_app).
  rewrite split_slash_app, normalizeSegs_app.
  assert (Posix.normalizeSegs false [] (split_slash root) = C ++ R') as ->.
  { rewrite <- HR. unfold Posix.resolve_segs. by rewrite Ha. }
  assert (split_slash (join "/" (map (λ _, "..") R' ++ T'))
          = map (λ _, "..") R' ++ T') as ->.
  { apply split_slash_join.
    - intros Hnil. by rewrite Hnil in Hne.
    - apply Forall_app. split; [apply dots_slash_free |].
      eapply Forall_impl; [exact HpT' |]. by intros x (_ & _ & _ & ?). }
  rewrite rev_app_distr.
  replace (map (λ _ : string, "..") R')
    with (map (λ _ : string, "..") (rev R')).
  2:{ clear. induction R' as [|a R' IH]; [done |]. simpl.
      rewrite map_app, IH. simpl. clear.
      induction R' as [|b R' IH]; [done |]. simpl. by rewrite IH. }
  rewrite normalizeSegs_pop by (by apply Forall_rev).
  rewrite normalizeSegs_no_dotdot by (by apply plain_no_dotdot).
  by rewrite rev_involutive, plain_filter, HT.
Qed.

Lemma ends_with_slash_snoc (x : string) :
  Posix.ends_with_slash x = true → ∃ y, x = y +:+ "/".
Proof.
  unfold Posix.ends_with_slash. induction x as [|c x IH]; [done |].
  destruct x as [|c' x].
  - simpl. unfold is_slash. destruct (Ascii.eqb_spec c slash) as [-> |]; [| done].
    intros _. by exists "".
  - intros H. destruct (IH H) as [y Hy]. exists (String c y).
    by rewrite append_cons, <- Hy.
Qed.

Lemma slash_free_no_trailing (x : string) :
  slash_free x → Posix.ends_with_slash x = false.
Proof.
  unfold slash_free. intros Hx.
  destruct (Posix.ends_with_slash x) eqn:He; [| done].
  apply ends_with_slash_snoc in He as [y ->].
  change (y +:+ "/") with (y +:+ "/" +:+ "") in Hx at 1.
  rewrite split_slash_app in Hx. apply (f_equal length) in Hx.
  rewrite length_app in Hx. simpl in Hx.
  pose proof (split_slash_not_nil y). destruct (split_slash y); [done |].
  simpl in Hx. lia.
Qed.

Lemma join_plain_no_trailing (S : list string) :
  Forall plain S → S ≠ [] → Posix.ends_with_slash (join "/" S) = false.
Proof.
  induction 1 as [|x S (Hx & _ & _ & Hsf) HS IH]; [done |]. intros _.
  destruct S as [|y S]; [by apply slash_free_no_trailing |].
  change (join "/" (x :: y :: S)) with (x +:+ "/" +:+ join "/" (y :: S)).
  assert (non_empty (join "/" (y :: S)) = true) as Hne.
  { destruct (non_empty (join "/" (y :: S))) eqn:E; [done |].
    by apply join_plain_empty in E. }
  rewrite ends_with_slash_app by (by apply non_empty_app_r).
  rewrite ends_with_slash_app by done. by apply IH.
Qed.

Lemma normalize_absolute (p : string) :
  Posix.isAbsolute p = true →
  Posix.isAbsolute (Posix.normalize p) = true.
Proof.
  intros Ha. unfold Posix.normalize.
  rewrite (isAbsolute_non_empty p Ha), Ha.
  by destruct (non_empty _).
Qed.

Lemma normalize_no_trailing_slash (p : string) :
  Posix.isAbsolute p = true → Posix.ends_with_slash p = false →
  Posix.normalizeSegs false [] (split_slash p) ≠ [] →
  Posix.ends_with_slash (Posix.normalize p) = false.
Proof.
  intros Ha He Hne. unfold Posix.normalize, Posix.normalizeString.
  rewrite (isAbsolute_non_empty p Ha), Ha, He. simpl negb.
  assert (Forall plain (Posix.normalizeSegs false [] (split_slash p))) as HS.
  { apply normalizeSegs_plain; [constructor | apply split_slash_pieces]. }
  destruct (non_empty (join "/" _)) eqn:Hb.
  - rewrite append_empty_r, ends_with_slash_app by done.
    by apply join_plain_no_trailing.
  - by apply join_plain_empty in Hb.
Qed.

Lemma strip_trailing_fixed (p : string) :
  strip_trailing p = p → Posix.ends_with_slash p = false.
Proof.
  unfold Posix.ends_with_slash. induction p as [|c p IH]; [done |].
  destruct p as [|c' p].
  - simpl. unfold is_slash.
    destruct (Ascii.eqb c slash); [done |]. by destruct (Ascii.eqb c backslash).
  - intros H. apply IH. by injection H.
Qed.

Lemma has_nul_split (s : string) :
  Fs.has_nul s = false → Forall (λ x, Fs.has_nul x = false) (split_slash s).
Proof.
  induction s as [|c s IH]; simpl; [by repeat constructor |].
  intros [Hc Hs]%orb_false_elim. specialize (IH Hs).
  destruct (is_slash c); [by constructor |].
  destruct (split_slash s) as [|h t].
  - repeat constructor. simpl. by rewrite Hc.
  - inversion IH as [|? ? Hh Ht]; subst.
    constructor; [simpl; by rewrite Hc | done].
Qed.

Lemma normalizeSegs_Forall (P : string → Prop) b acc segs :
  P ".." → Forall P acc → Forall P segs →
  Forall P (Posix.normalizeSegs b acc segs).
Proof.
  intros Hd. revert acc.
  induction segs as [|s segs IH]; intros acc Ha Hs; simpl.
  - by apply Forall_rev.
  - inversion Hs as [|? ? Hs1 Hs2]; subst.
    destruct (_ || _); [by apply IH |].
    destruct (String.eqb s ".."); [| apply IH; [by constructor | done]].
    destruct acc as [|a acc'].
    + apply IH; [| done]. destruct b; by repeat constructor.
    + inversion Ha as [|? ? Ha1 Ha2]; subst.
      destruct (String.eqb a ".."); apply IH; try done.
      destruct b; [by constructor | done].
Qed.

Lemma has_nul_join (l : list string) :
  Forall (λ x, Fs.has_nul x = false) l → Fs.has_nul (join "/" l) = false.
Proof.
  induction 1 as [|x l Hx Hl IH]; [done |]. unfold join in *. simpl.
  destruct l; [done |]. by rewrite !has_nul_app, Hx, IH.
Qed.

(** The segments of a path that reached the system hold no NUL. *)
Lemma locate_nul_free (wd p : string) tg :
  Fs.locate wd p = Fs.Ok tg →
  Forall (λ x, Fs.has_nul x = false) (Posix.resolve_segs wd p).
Proof.
  intros (_ & Hn & _)%locate_ok. unfold Posix.resolve_segs.
  apply normalizeSegs_Forall; [done | constructor | by apply has_nul_split].
Qed.

Lemma normalize_nul_free (wd p : string) :
  Posix.isAbsolute p = true →
  Forall (λ x, Fs.has_nul x = false)
    (Posix.resolve_segs wd (Posix.normalize p)) →
  Fs.has_nul (Posix.normalize p) = false.
Proof.
  intros Ha. rewrite resolve_normalize by done. intros HF.
  unfold Posix.normalize, Posix.normalizeString.
  rewrite (isAbsolute_non_empty p Ha), Ha. simpl negb.
  destruct (non_empty _); [| done].
  rewrite !has_nul_app, (has_nul_join _ HF).
  by destruct (Posix.ends_with_slash p).
Qed.

(** X16: what [save] stored can be read back through the relative path its
    URL is built from: on a POSIX host with an absolute storage root, after
    a successful [save] to a destination other than the root itself, [read]
    of [path.relative(storagePath, destination)] resolves with the bytes of
    the source file (the relative path not ending in a backslash, the
    joined path within the length the file system accepts). *)
Theorem save_then_read {base : StorageBase} config image targetDir w url w'
    filename l :
  let posix := Posix.posix (cwd w) in
  let root := storagePath config in
  let dir := or_else targetDir (getTargetDir root) in
  let rel := Posix.relative (cwd w) root filename in
  let source := Posix.resolve_segs (cwd w) (image_path image) in
  read_only (getUniqueFileName (@exists_ posix config) image dir) →
  Posix.isAbsolute root = true →
  @save posix base config image targetDir w = (Resolved url, w') →
  fst (getUniqueFileName (@exists_ posix config) image dir w)
  = Resolved filename →
  non_empty rel = true → strip_trailing rel = rel →
  String.length (Posix.join_paths [root; rel]) < Fs.PATH_MAX →
  ∃ data,
    files w !! source = Some (Fs.File true data) ∧
    fst (@read posix config (Some l) (with_options l rel w')) = Resolved data.
Proof.
  intros posix root dir rel source Hro Ha Hs Hn Hne Hstrip Hlen.
  apply save_resolved in Hs
    as (filename' & w1 & t2 & t3 & Hu & Hm & Hc & Hf & Hwd & _ & _).
  fold root dir in Hu. rewrite Hu in Hn. injection Hn as ->.
  destruct (Hro w) as [Hf1 Hwd1]. fold root dir in Hf1, Hwd1.
  rewrite Hu in Hf1, Hwd1. simpl in Hf1, Hwd1.
  rewrite Hwd1 in Hwd, Hm, Hc. rewrite Hf1 in Hm.
  apply copy_done in Hc as (data & t' & Hst & _ & _ & Hw).
  apply stat_file in Hst.
  pose proof (mkdirs_adds_directories _ _ _ _ _ _ _ _ Hm Hst) as Hsrc.
  exists data. split; [exact Hsrc |].
  apply writeFile_segs in Hw as (tg & x & Hl & Hsegs & _ & Hwalk & _ & ->).
  pose proof (locate_segs _ _ _ Hl) as HT.
  set (target := Posix.join_paths [root; rel]) in *.
  assert (Posix.resolve_segs (cwd w) target = Fs.segs tg) as Hres.
  { rewrite HT. by apply join_relative. }
  assert (Posix.isAbsolute target = true) as Hta.
  { unfold target. rewrite join_paths_two; [| by apply isAbsolute_non_empty | done].
    by apply normalize_absolute, isAbsolute_app. }
  assert (Posix.ends_with_slash target = false) as Hte.
  { unfold target. rewrite join_paths_two; [| by apply isAbsolute_non_empty | done].
    apply normalize_no_trailing_slash.
    - by apply isAbsolute_app.
    - rewrite ends_with_slash_app by (by apply non_empty_app_r).
      rewrite ends_with_slash_app by done. by apply strip_trailing_fixed.
    - rewrite <- (resolve_normalize (cwd w)) by (by apply isAbsolute_app).
      rewrite <- join_paths_two; [| by apply isAbsolute_non_empty | done].
      fold target. by rewrite Hres. }
  assert (Fs.has_nul target = false) as Hnul.
  { assert (target = Posix.normalize (root +:+ "/" +:+ rel)) as Heq.
    { apply join_paths_two; [by apply isAbsolute_non_empty | done]. }
    pose proof Hres as Hres'. rewrite Heq in Hres' |- *.
    apply (normalize_nul_free (cwd w)); [by apply isAbsolute_app |].
    rewrite Hres', HT. by eapply locate_nul_free. }
  assert (Fs.readFile (cwd w) (<[Fs.segs tg := Fs.File true data]> t') target
          = Fs.Ok data) as Hread.
  { unfold Fs.readFile, Fs.lookup_path, Fs.locate.
    rewrite (isAbsolute_non_empty _ Hta). simpl negb. rewrite Hta, Hnul.
    apply Nat.leb_gt in Hlen. rewrite Hlen. simpl.
    rewrite Hres, Hte.
    pose proof (walk_insert t' filename target [] (Fs.segs tg) x
                  (Fs.File true data) Hsegs Hwalk) as Hw'.
    simpl in Hw'. by rewrite Hw'. }
  rewrite read_with_options, Hstrip, Hwd, Hf. simpl.
  fold root rel target. unfold read_settles, Fs.validate.
  by rewrite Hnul, Hread.
Qed.

Lemma save_then_read_witness :
  ∃ data,
    fst (Ghost.read (Some 1%positive)
           (with_options 1%positive "2024/03/my-photo.gif"
              (snd (Ghost.save Ghost.upload None Ghost.uploadWorld))))
    = Resolved data.
Proof.
  destruct (@save_then_read Ghost.base Ghost.config Ghost.upload None
              Ghost.uploadWorld "/content/images/2024/03/my-photo.gif"
              (snd (Ghost.save Ghost.upload None Ghost.uploadWorld))
              "/var/lib/ghost/content/images/2024/03/my-photo.gif"
              1%positive)
    as (data & _ & H).
  - apply getUniqueFileName_read_only. intros f d. apply exists_read_only.
  - vm_compute. reflexivity.
  - vm_compute. reflexivity.
  - vm_compute. reflexivity.
  - vm_compute. reflexivity.
  - vm_compute. reflexivity.
  - vm_compute. lia.
  - exists data. exact H.
Defined.

(** ** Directories that [saveRaw] makes *)

Lemma mkdirp_walk (t t1 : Fs.tree) p q cur rest :
  Fs.mkdirp t p cur rest = (None, t1) → rest ≠ [] →
  ∃ perm, Fs.walk t1 q cur rest = Fs.Ok (Some (Fs.Dir perm)).
Proof.
  revert t cur. induction rest as [|c rest IH]; intros t cur; [done |].
  simpl. destruct (Fs.too_long c); [done |]. intros Hm _.
  assert (∀ t0, t0 !! (cur ++ [c]) = Some (Fs.Dir true) →
                Fs.mkdirp t0 p (cur ++ [c]) rest = (None, t1) →
                ∃ perm,
                  match rest with
                  | [] => Fs.Ok (t1 !! (cur ++ [c]))
                  | _ :: _ =>
                      match t1 !! (cur ++ [c]) with
                      | None => Fs.Err (Fs.errno "ENOENT" q)
                      | Some (Fs.File _ _) => Fs.Err (Fs.errno "ENOTDIR" q)
                      | Some (Fs.Dir false) => Fs.Err (Fs.errno "EACCES" q)
                      | Some (Fs.Dir true) => Fs.walk t1 q (cur ++ [c]) rest
                      end
                  end = Fs.Ok (Some (Fs.Dir perm))) as Hstep.
  { intros t0 H0 Hm0.
    rewrite (mkdirp_preserves _ _ _ _ _ _ _ _ Hm0 H0).
    destruct rest as [|c2 rest]; [by exists true |].
    by apply (IH t0 (cur ++ [c]) Hm0). }
  destruct (t !! (cur ++ [c])) as [[perm d|[|]]|] eqn:Hl.
  - by destruct rest.
  - by apply (Hstep t).
  - destruct rest; [| done]. injection Hm as <-. exists false. by rewrite Hl.
  - apply (Hstep _ (lookup_insert_eq _ _ _) Hm).
Qed.

Lemma mkdirs_stat (wd : string) (t t1 : Fs.tree) (p : string) :
  Fs.mkdirs wd t p = (None, t1) → ∃ perm, Fs.stat wd t1 p = Fs.Ok (Fs.Dir perm).
Proof.
  unfold Fs.mkdirs, Fs.stat, Fs.lookup_path.
  destruct (Fs.locate wd p) as [tg|e]; [| done].
  destruct (Fs.segs tg) as [|c segs] eqn:Hs.
  - intros _. by exists true.
  - intros Hm. destruct (mkdirp_walk _ _ _ p _ _ Hm) as [perm ->]; [done |].
    by exists perm.
Qed.

(** X17: the directory [saveRaw] made stays: once [fs.mkdirs] has succeeded,
    the directory of the target path exists after the call, also when the
    write then fails (nothing is cleaned up). *)
Theorem saveRaw_leaves_directory {path : PathModule} config buffer P w :
  let dir := path_dirname (path_join [storagePath config; P]) in
  let w' := snd (saveRaw config buffer P w) in
  fst (Fs.mkdirs (cwd w) (files w) dir) = None →
  ∃ perm, Fs.stat (cwd w') (files w') dir = Fs.Ok (Fs.Dir perm).
Proof.
  intros dir w' Hm. unfold w'. rewrite saveRaw_cwd.
  destruct (saveRaw_outcome config buffer P w)
    as [(e & t1 & Hm1 & _) | [(e & t1 & Hm1 & Hw & ->) | (t1 & t2 & Hm1 & Hw & ->)]];
    fold dir in Hm1; rewrite Hm1 in Hm; [done | |]; simpl.
  - by apply mkdirs_stat in Hm1.
  - apply mkdirs_stat in Hm1 as [perm H1]. exists perm.
    by apply (stat_dir_grows _ _ _ _ _ (writeFile_grows _ _ _ _ _ Hw)).
Qed.

Lemma saveRaw_leaves_directory_witness :
  let w' := snd (Ghost.saveRaw Ghost.sample "2024/03/" Ghost.world) in
  ∃ perm, Fs.stat (cwd w') (files w') "/var/lib/ghost/content/images/2024"
          = Fs.Ok (Fs.Dir perm).
Proof.
  apply (@saveRaw_leaves_directory Ghost.path Ghost.config Ghost.sample
           "2024/03/" Ghost.world).
  vm_compute. reflexivity.
Defined.
